(** * Reach: the fixed-timestep simulation core

    A shallow embedding of [src/presence.js] (class [Presence]) and
    [src/game.js] (class [Game]) and the properties of the simulation
    state machine.

    JavaScript numbers are read as real numbers: [Math.max], [Math.min]
    and [Math.exp] are [Rmax], [Rmin] and [exp], and the comparisons of
    the source are the decidable comparisons of [R].  Rounding, NaN and
    the infinities of IEEE doubles are outside this model. *)

From Stdlib Require Import ZArith Reals Lra List Lia.
Import ListNotations.

Local Open Scope R_scope.

(* ================================================================= *)
(** ** presence.js *)

Module Presence.

(** The fields assigned by the constructor, in the order of the source. *)
Record t : Type := mk {
  x : R;
  y : R;
  radius : R;
  expandRate : R;
  retractRate : R;
  minRadius : R;
  maxRadius : R;
  expandDirection : R;
  targetRadius : R;
  radiusSmoothness : R
}.

(** [new Presence(x, y)] *)
Definition new (x0 y0 : R) : t :=
  let radius0 := 0.15 in
  {| x := x0; y := y0;
     radius := radius0;
     expandRate := 0.12;
     retractRate := 0.18;
     minRadius := 0.05;
     maxRadius := 0.6;
     expandDirection := 0;
     targetRadius := radius0;
     radiusSmoothness := 8 |}.

Definition set_expandDirection (p : t) (v : R) : t :=
  {| x := x p; y := y p; radius := radius p;
     expandRate := expandRate p; retractRate := retractRate p;
     minRadius := minRadius p; maxRadius := maxRadius p;
     expandDirection := v;
     targetRadius := targetRadius p;
     radiusSmoothness := radiusSmoothness p |}.

Definition set_targetRadius (p : t) (v : R) : t :=
  {| x := x p; y := y p; radius := radius p;
     expandRate := expandRate p; retractRate := retractRate p;
     minRadius := minRadius p; maxRadius := maxRadius p;
     expandDirection := expandDirection p;
     targetRadius := v;
     radiusSmoothness := radiusSmoothness p |}.

Definition set_radius (p : t) (v : R) : t :=
  {| x := x p; y := y p; radius := v;
     expandRate := expandRate p; retractRate := retractRate p;
     minRadius := minRadius p; maxRadius := maxRadius p;
     expandDirection := expandDirection p;
     targetRadius := targetRadius p;
     radiusSmoothness := radiusSmoothness p |}.

(** [setExpandDirection(direction)]:
    [this.expandDirection = Math.max(-1, Math.min(1, direction))] *)
Definition setExpandDirection (direction : R) (p : t) : t :=
  set_expandDirection p (Rmax (-1) (Rmin 1 direction)).

(** The first statement of [update]: the [if / else if] on the sign of
    [expandDirection]. *)
Definition advanceTarget (dt : R) (p : t) : t :=
  if Rlt_dec 0 (expandDirection p) then
    set_targetRadius p (targetRadius p + expandRate p * expandDirection p * dt)
  else if Rlt_dec (expandDirection p) 0 then
    set_targetRadius p (targetRadius p + retractRate p * expandDirection p * dt)
  else p.

(** [this.targetRadius = Math.max(minRadius, Math.min(maxRadius, targetRadius))] *)
Definition clampTarget (p : t) : t :=
  set_targetRadius p (Rmax (minRadius p) (Rmin (maxRadius p) (targetRadius p))).

(** [const t = 1 - Math.exp(-radiusSmoothness * dt)] *)
Definition smoothing (dt : R) (p : t) : R :=
  1 - exp (- radiusSmoothness p * dt).

(** [this.radius += (this.targetRadius - this.radius) * t] *)
Definition approachTarget (dt : R) (p : t) : t :=
  let t := smoothing dt p in
  set_radius p (radius p + (targetRadius p - radius p) * t).

(** [update(dt)] *)
Definition update (dt : R) (p : t) : t :=
  let p := advanceTarget dt p in
  let p := clampTarget p in
  approachTarget dt p.

(** [getOverextension(sustainableThreshold)] *)
Definition getOverextension (sustainableThreshold : R) (p : t) : R :=
  if Rle_dec (radius p) sustainableThreshold then 0
  else
    let overAmount := radius p - sustainableThreshold in
    let maxOver := maxRadius p - sustainableThreshold in
    Rmin 1 (overAmount / maxOver).

(** The constants of the constructor, which no method assigns. *)
Definition tuned (p : t) : Prop :=
  expandRate p = 0.12 /\ retractRate p = 0.18 /\
  minRadius p = 0.05 /\ maxRadius p = 0.6 /\ radiusSmoothness p = 8.

(** [minRadius <= radius <= maxRadius], and the same for the target. *)
Definition bounded (p : t) : Prop :=
  (minRadius p <= radius p <= maxRadius p) /\
  (minRadius p <= targetRadius p <= maxRadius p).

End Presence.

(* ================================================================= *)
(** ** game.js *)

(** [GameState = { PLAYING, WON, FAILED }] *)
Inductive GameState : Type := PLAYING | WON | FAILED.

Definition GameState_eq_dec (a b : GameState) : {a = b} + {a <> b}.
Proof. decide equality. Defined.

Module Game.

Record t : Type := mk {
  presence : Presence.t;
  state : GameState;
  time : R;
  gameTime : R;
  winTime : R;
  clarity : R;
  sustainableThreshold : R;
  thresholdDecayRate : R;
  clarityRecoveryRate : R;
  clarityDecayRate : R;
  clarityMinRecovery : R;
  failureClarity : R;
  fixedDt : R;
  accumulator : R
}.

(** [new Game()] *)
Definition new : t :=
  {| presence := Presence.new 0.5 0.5;
     state := PLAYING;
     time := 0;
     gameTime := 0;
     winTime := 180;
     clarity := 1;
     sustainableThreshold := 0.4;
     thresholdDecayRate := 0.008;
     clarityRecoveryRate := 0.15;
     clarityDecayRate := 0.25;
     clarityMinRecovery := 0.3;
     failureClarity := 0.15;
     fixedDt := 1 / 60;
     accumulator := 0 |}.

Definition set_presence (g : t) (v : Presence.t) : t :=
  {| presence := v; state := state g; time := time g;
     gameTime := gameTime g; winTime := winTime g; clarity := clarity g;
     sustainableThreshold := sustainableThreshold g;
     thresholdDecayRate := thresholdDecayRate g;
     clarityRecoveryRate := clarityRecoveryRate g;
     clarityDecayRate := clarityDecayRate g;
     clarityMinRecovery := clarityMinRecovery g;
     failureClarity := failureClarity g;
     fixedDt := fixedDt g; accumulator := accumulator g |}.

Definition set_state (g : t) (v : GameState) : t :=
  {| presence := presence g; state := v; time := time g;
     gameTime := gameTime g; winTime := winTime g; clarity := clarity g;
     sustainableThreshold := sustainableThreshold g;
     thresholdDecayRate := thresholdDecayRate g;
     clarityRecoveryRate := clarityRecoveryRate g;
     clarityDecayRate := clarityDecayRate g;
     clarityMinRecovery := clarityMinRecovery g;
     failureClarity := failureClarity g;
     fixedDt := fixedDt g; accumulator := accumulator g |}.

Definition set_time (g : t) (v : R) : t :=
  {| presence := presence g; state := state g; time := v;
     gameTime := gameTime g; winTime := winTime g; clarity := clarity g;
     sustainableThreshold := sustainableThreshold g;
     thresholdDecayRate := thresholdDecayRate g;
     clarityRecoveryRate := clarityRecoveryRate g;
     clarityDecayRate := clarityDecayRate g;
     clarityMinRecovery := clarityMinRecovery g;
     failureClarity := failureClarity g;
     fixedDt := fixedDt g; accumulator := accumulator g |}.

Definition set_gameTime (g : t) (v : R) : t :=
  {| presence := presence g; state := state g; time := time g;
     gameTime := v; winTime := winTime g; clarity := clarity g;
     sustainableThreshold := sustainableThreshold g;
     thresholdDecayRate := thresholdDecayRate g;
     clarityRecoveryRate := clarityRecoveryRate g;
     clarityDecayRate := clarityDecayRate g;
     clarityMinRecovery := clarityMinRecovery g;
     failureClarity := failureClarity g;
     fixedDt := fixedDt g; accumulator := accumulator g |}.

Definition set_clarity (g : t) (v : R) : t :=
  {| presence := presence g; state := state g; time := time g;
     gameTime := gameTime g; winTime := winTime g; clarity := v;
     sustainableThreshold := sustainableThreshold g;
     thresholdDecayRate := thresholdDecayRate g;
     clarityRecoveryRate := clarityRecoveryRate g;
     clarityDecayRate := clarityDecayRate g;
     clarityMinRecovery := clarityMinRecovery g;
     failureClarity := failureClarity g;
     fixedDt := fixedDt g; accumulator := accumulator g |}.

Definition set_sustainableThreshold (g : t) (v : R) : t :=
  {| presence := presence g; state := state g; time := time g;
     gameTime := gameTime g; winTime := winTime g; clarity := clarity g;
     sustainableThreshold := v;
     thresholdDecayRate := thresholdDecayRate g;
     clarityRecoveryRate := clarityRecoveryRate g;
     clarityDecayRate := clarityDecayRate g;
     clarityMinRecovery := clarityMinRecovery g;
     failureClarity := failureClarity g;
     fixedDt := fixedDt g; accumulator := accumulator g |}.

Definition set_accumulator (g : t) (v : R) : t :=
  {| presence := presence g; state := state g; time := time g;
     gameTime := gameTime g; winTime := winTime g; clarity := clarity g;
     sustainableThreshold := sustainableThreshold g;
     thresholdDecayRate := thresholdDecayRate g;
     clarityRecoveryRate := clarityRecoveryRate g;
     clarityDecayRate := clarityDecayRate g;
     clarityMinRecovery := clarityMinRecovery g;
     failureClarity := failureClarity g;
     fixedDt := fixedDt g; accumulator := v |}.

(** *** The statements of [_fixedUpdate], one definition per block *)

(** [this.gameTime += dt] *)
Definition advanceGameTime (dt : R) (g : t) : t :=
  set_gameTime g (gameTime g + dt).

(** [this.presence.setExpandDirection(expandDirection);
     this.presence.update(dt)] *)
Definition updatePresence (dt expandDirection : R) (g : t) : t :=
  set_presence g
    (Presence.update dt
       (Presence.setExpandDirection expandDirection (presence g))).

(** [this.sustainableThreshold =
       Math.max(0.1, this.sustainableThreshold - this.thresholdDecayRate * dt)] *)
Definition decayThreshold (dt : R) (g : t) : t :=
  set_sustainableThreshold g
    (Rmax 0.1 (sustainableThreshold g - thresholdDecayRate g * dt)).

(** [const targetClarity =
       Math.max(this.clarityMinRecovery, 1 - (this.gameTime / this.winTime) * 0.3)] *)
Definition targetClarity (g : t) : R :=
  Rmax (clarityMinRecovery g) (1 - (gameTime g / winTime g) * 0.3).

(** The [if (overextension > 0) ... else ...] block. *)
Definition updateClarity (dt overextension : R) (g : t) : t :=
  if Rlt_dec 0 overextension then
    let decayAmount := clarityDecayRate g * overextension * dt in
    set_clarity g (Rmax 0 (clarity g - decayAmount))
  else
    if Rlt_dec (clarity g) (targetClarity g) then
      set_clarity g
        (Rmin (targetClarity g) (clarity g + clarityRecoveryRate g * dt))
    else g.

(** [if (this.gameTime >= this.winTime) this.state = WON] *)
Definition checkWin (g : t) : t :=
  if Rge_dec (gameTime g) (winTime g) then set_state g WON else g.

(** [if (this.clarity <= this.failureClarity) this.state = FAILED] *)
Definition checkFail (g : t) : t :=
  if Rle_dec (clarity g) (failureClarity g) then set_state g FAILED else g.

(** [_fixedUpdate(dt, expandDirection)] *)
Definition _fixedUpdate (dt expandDirection : R) (g : t) : t :=
  let g := advanceGameTime dt g in
  let g := updatePresence dt expandDirection g in
  let g := decayThreshold dt g in
  let overextension :=
    Presence.getOverextension (sustainableThreshold g) (presence g) in
  let g := updateClarity dt overextension g in
  let g := checkWin g in
  checkFail g.

(** The state of [_fixedUpdate] when its clarity block starts, and the
    value of its local [overextension]. *)
Definition beforeClarity (dt expandDirection : R) (g : t) : t :=
  decayThreshold dt (updatePresence dt expandDirection (advanceGameTime dt g)).

Definition tickOverextension (dt expandDirection : R) (g : t) : R :=
  let g := beforeClarity dt expandDirection g in
  Presence.getOverextension (sustainableThreshold g) (presence g).

(** The state of [_fixedUpdate] when the win check starts. *)
Definition beforeChecks (dt expandDirection : R) (g : t) : t :=
  updateClarity dt (tickOverextension dt expandDirection g)
    (beforeClarity dt expandDirection g).

(** The body of the [while] loop of [update]:
    [this._fixedUpdate(this.fixedDt, expandDirection);
     this.accumulator -= this.fixedDt] *)
Definition loopBody (expandDirection : R) (g : t) : t :=
  let g := _fixedUpdate (fixedDt g) expandDirection g in
  set_accumulator g (accumulator g - fixedDt g).

(** [while (this.accumulator >= this.fixedDt) { ... }].  The loop of the
    source has no bound of its own; [fuel] bounds the number of
    iterations and [None] is a loop that has not finished within it. *)
Fixpoint drain (fuel : nat) (expandDirection : R) (g : t) : option t :=
  if Rge_dec (accumulator g) (fixedDt g) then
    match fuel with
    | O => None
    | S fuel' => drain fuel' expandDirection (loopBody expandDirection g)
    end
  else Some g.

(** [update(dt, expandDirection)] *)
Definition update (fuel : nat) (dt expandDirection : R) (g : t) : option t :=
  if GameState_eq_dec (state g) PLAYING then
    let g := set_time g (time g + dt) in
    let g := set_accumulator g (accumulator g + dt) in
    drain fuel expandDirection g
  else Some g.

(** [reset()] *)
Definition reset (g : t) : t :=
  let g := set_presence g (Presence.new 0.5 0.5) in
  let g := set_state g PLAYING in
  let g := set_time g 0 in
  let g := set_gameTime g 0 in
  let g := set_clarity g 1 in
  set_sustainableThreshold g 0.4.

(** [getProgress()] *)
Definition getProgress (g : t) : R := Rmin 1 (gameTime g / winTime g).

(** *** Trajectories *)

(** The state after [n] iterations of the loop body, all with the same
    direction. *)
Definition ticks (n : nat) (expandDirection : R) (g : t) : t :=
  Nat.iter n (loopBody expandDirection) g.

(** The state on entry to the [while] loop of [update]. *)
Definition enter (dt : R) (g : t) : t :=
  set_accumulator (set_time g (time g + dt)) (accumulator g + dt).

(** A sequence of [update(dt, direction)] calls, in order. *)
Fixpoint run (fuel : nat) (calls : list (R * R)) (g : t) : option t :=
  match calls with
  | [] => Some g
  | (dt, direction) :: rest =>
      match update fuel dt direction g with
      | Some g' => run fuel rest g'
      | None => None
      end
  end.

(** The constants of the constructor, which no method assigns. *)
Definition tuned (g : t) : Prop :=
  winTime g = 180 /\ thresholdDecayRate g = 0.008 /\
  clarityRecoveryRate g = 0.15 /\ clarityDecayRate g = 0.25 /\
  clarityMinRecovery g = 0.3 /\ failureClarity g = 0.15 /\
  fixedDt g = 1 / 60.

(** The invariant of the simulation: constructor constants in place and
    every scalar inside its documented range. *)
Definition inv (g : t) : Prop :=
  tuned g /\ Presence.tuned (presence g) /\ Presence.bounded (presence g) /\
  0 <= clarity g <= 1 /\
  0.1 <= sustainableThreshold g <= 1 /\
  0 <= gameTime g.

(** The ranges of the three scalars a caller can observe. *)
Definition inRange (g : t) : Prop :=
  (Presence.minRadius (presence g) <= Presence.radius (presence g)
     <= Presence.maxRadius (presence g)) /\
  0 <= clarity g <= 1 /\
  0.1 <= sustainableThreshold g <= 1.

Definition terminal (g : t) : Prop := state g = WON \/ state g = FAILED.

(** The states a controller can be in: constructed, then any number of
    [update] calls with [dt >= 0] and of [reset] calls. *)
Inductive Reachable : t -> Prop :=
| reach_new : Reachable new
| reach_update (g g' : t) (fuel : nat) (dt direction : R) :
    Reachable g -> 0 <= dt ->
    update fuel dt direction g = Some g' -> Reachable g'
| reach_reset (g : t) : Reachable g -> Reachable (reset g).

(** Far out at the lowest threshold: the target at [maxRadius], the
    radius within 0.1 of it, [sustainableThreshold] at its floor. *)
Definition expanded (g : t) : Prop :=
  tuned g /\ Presence.tuned (presence g) /\
  0.5 <= Presence.radius (presence g) <= 0.6 /\
  Presence.targetRadius (presence g) = 0.6 /\
  sustainableThreshold g = 0.1.

(** A controller one tick before the win time, expanding towards the
    largest radius, with clarity [c]. *)
Definition nearEnd (c : R) : t :=
  {| presence :=
       Presence.set_targetRadius
         (Presence.set_radius (Presence.new 0.5 0.5) 0.55) 0.6;
     state := PLAYING;
     time := 10799 / 60;
     gameTime := 10799 / 60;
     winTime := 180;
     clarity := c;
     sustainableThreshold := 0.1;
     thresholdDecayRate := 0.008;
     clarityRecoveryRate := 0.15;
     clarityDecayRate := 0.25;
     clarityMinRecovery := 0.3;
     failureClarity := 0.15;
     fixedDt := 1 / 60;
     accumulator := 0 |}.

(** ... with clarity just above the failure threshold: the next tick
    crosses both the win time and the failure threshold. *)
Definition tieState : t := nearEnd 0.152.

(** *** [getRenderState] *)

(** The object literal returned by [getRenderState]: a nested
    [presence: { x, y, radius }] and five scalars. *)
Module RenderState.

Record presenceView : Type := mkPresence {
  x : R;
  y : R;
  radius : R
}.

Record t : Type := mk {
  presence : presenceView;
  clarity : R;
  time : R;
  gameTime : R;
  state : GameState;
  sustainableThreshold : R
}.

End RenderState.

(** [getRenderState()] *)
Definition getRenderState (g : t) : RenderState.t :=
  {| RenderState.presence :=
       {| RenderState.x := Presence.x (presence g);
          RenderState.y := Presence.y (presence g);
          RenderState.radius := Presence.radius (presence g) |};
     RenderState.clarity := clarity g;
     RenderState.time := time g;
     RenderState.gameTime := gameTime g;
     RenderState.state := state g;
     RenderState.sustainableThreshold := sustainableThreshold g |}.

(** *** Invariants of the reachable states *)

(** The phase against the two terminal conditions. *)
Definition phaseInv (g : t) : Prop :=
  (clarity g <= failureClarity g -> state g = FAILED) /\
  (failureClarity g < clarity g -> gameTime g >= winTime g -> state g = WON) /\
  (state g = WON -> gameTime g >= winTime g).


(** A player who never retracts: radius and target stay at or above the
    starting radius, and clarity stays under a ceiling that falls, from
    game time 37.5 on, by 0.025 per second. *)
Definition neverRetracted (g : t) : Prop :=
  0.15 <= Presence.radius (presence g) /\
  0.15 <= Presence.targetRadius (presence g) /\
  clarity g <= Rmax 0 (1 - 0.025 * (gameTime g - 37.5)).

(** A player who only retracts: the target is at most where a constant
    retraction would have taken it, the radius trails the target by at
    most 0.0225, and clarity is untouched. *)
Definition alwaysRetracted (g : t) : Prop :=
  Presence.targetRadius (presence g) <= Rmax 0.05 (0.15 - 0.18 * gameTime g) /\
  Presence.radius (presence g) <= Presence.targetRadius (presence g) + 0.0225 /\
  clarity g = 1.

End Game.

(* ================================================================= *)
(** ** input.js *)

Module Input.

(** The [{ x, y }] object literals of [currentPos] and [lastPos]. *)
Record pos : Type := mkPos {
  x : R;
  y : R
}.

(** The fields assigned by the constructor; [canvas] is the DOM element
    the listeners are bound to and is not read by any method below. *)
Record t : Type := mk {
  isActive : bool;
  currentPos : pos;
  lastPos : pos;
  expandDirection : R;
  sensitivity : R;
  smoothedDirection : R;
  smoothingFactor : R
}.

(** [new Input(canvas)] *)
Definition new : t :=
  {| isActive := false;
     currentPos := {| x := 0; y := 0 |};
     lastPos := {| x := 0; y := 0 |};
     expandDirection := 0;
     sensitivity := 3;
     smoothedDirection := 0;
     smoothingFactor := 0.15 |}.

Definition set_isActive (i : t) (v : bool) : t :=
  {| isActive := v; currentPos := currentPos i; lastPos := lastPos i;
     expandDirection := expandDirection i; sensitivity := sensitivity i;
     smoothedDirection := smoothedDirection i;
     smoothingFactor := smoothingFactor i |}.

Definition set_currentPos (i : t) (v : pos) : t :=
  {| isActive := isActive i; currentPos := v; lastPos := lastPos i;
     expandDirection := expandDirection i; sensitivity := sensitivity i;
     smoothedDirection := smoothedDirection i;
     smoothingFactor := smoothingFactor i |}.

Definition set_lastPos (i : t) (v : pos) : t :=
  {| isActive := isActive i; currentPos := currentPos i; lastPos := v;
     expandDirection := expandDirection i; sensitivity := sensitivity i;
     smoothedDirection := smoothedDirection i;
     smoothingFactor := smoothingFactor i |}.

Definition set_expandDirection (i : t) (v : R) : t :=
  {| isActive := isActive i; currentPos := currentPos i; lastPos := lastPos i;
     expandDirection := v; sensitivity := sensitivity i;
     smoothedDirection := smoothedDirection i;
     smoothingFactor := smoothingFactor i |}.

Definition set_smoothedDirection (i : t) (v : R) : t :=
  {| isActive := isActive i; currentPos := currentPos i; lastPos := lastPos i;
     expandDirection := expandDirection i; sensitivity := sensitivity i;
     smoothedDirection := v;
     smoothingFactor := smoothingFactor i |}.

(** [_onStart(x, y)] *)
Definition _onStart (x0 y0 : R) (i : t) : t :=
  let i := set_isActive i true in
  let i := set_currentPos i {| x := x0; y := y0 |} in
  set_lastPos i {| x := x0; y := y0 |}.

(** [_onMove(x, y)]: [this.lastPos = { ...this.currentPos }] is a copy. *)
Definition _onMove (x0 y0 : R) (i : t) : t :=
  let i := set_lastPos i (currentPos i) in
  set_currentPos i {| x := x0; y := y0 |}.

(** [_onEnd()] *)
Definition _onEnd (i : t) : t :=
  let i := set_isActive i false in
  set_expandDirection i 0.

(** The listeners of [_bindEvents]; a touch event carries the client
    coordinates of [e.touches[0]]. *)
Inductive event : Type :=
| mousedown (clientX clientY : R)
| mousemove (clientX clientY : R)
| mouseup
| mouseleave
| touchstart (clientX clientY : R)
| touchmove (clientX clientY : R)
| touchend
| touchcancel.

Definition dispatch (e : event) (i : t) : t :=
  match e with
  | mousedown cx cy => _onStart cx cy i
  | mousemove cx cy => _onMove cx cy i
  | mouseup => _onEnd i
  | mouseleave => _onEnd i
  | touchstart cx cy => _onStart cx cy i
  | touchmove cx cy => _onMove cx cy i
  | touchend => _onEnd i
  | touchcancel => _onEnd i
  end.

(** The local [radialComponent] of [update], from the drag vector and the
    vector from the presence centre to the pointer. *)
Definition radialComponent (presenceCenterX presenceCenterY : R) (i : t) : R :=
  let dx := x (currentPos i) - x (lastPos i) in
  let dy := y (currentPos i) - y (lastPos i) in
  let toCenterX := x (currentPos i) - presenceCenterX in
  let toCenterY := y (currentPos i) - presenceCenterY in
  let centerDist := sqrt (toCenterX * toCenterX + toCenterY * toCenterY) in
  let centerNormX := toCenterX / centerDist in
  let centerNormY := toCenterY / centerDist in
  (dx * centerNormX + dy * centerNormY) * sensitivity i.

(** The local [centerDist] of [update]. *)
Definition centerDist (presenceCenterX presenceCenterY : R) (i : t) : R :=
  let toCenterX := x (currentPos i) - presenceCenterX in
  let toCenterY := y (currentPos i) - presenceCenterY in
  sqrt (toCenterX * toCenterX + toCenterY * toCenterY).

(** [update(presenceCenterX, presenceCenterY)] *)
Definition update (presenceCenterX presenceCenterY : R) (i : t) : t :=
  if negb (isActive i) then
    let i := set_smoothedDirection i (smoothedDirection i * 0.85) in
    set_expandDirection i (smoothedDirection i)
  else
    if Rlt_dec (centerDist presenceCenterX presenceCenterY i) 1 then
      set_expandDirection i 0
    else
      let rawDirection :=
        Rmax (-1) (Rmin 1 (radialComponent presenceCenterX presenceCenterY i)) in
      let i :=
        set_smoothedDirection i
          (smoothedDirection i
           + (rawDirection - smoothedDirection i) * smoothingFactor i) in
      set_expandDirection i (smoothedDirection i).

(** [getExpandDirection()] *)
Definition getExpandDirection (i : t) : R := expandDirection i.

(** What happens to an [Input] between two frames and on a frame: DOM
    events, and the [update] call of the main loop. *)
Inductive step : Type :=
| onEvent (e : event)
| onUpdate (presenceCenterX presenceCenterY : R).

Definition apply (s : step) (i : t) : t :=
  match s with
  | onEvent e => dispatch e i
  | onUpdate cx cy => update cx cy i
  end.

Definition applyAll (steps : list step) (i : t) : t :=
  fold_left (fun acc s => apply s acc) steps i.

(** Both outputs within [-1, 1], with the constructor's smoothing factor. *)
Definition inv (i : t) : Prop :=
  smoothingFactor i = 0.15 /\
  -1 <= smoothedDirection i <= 1 /\
  -1 <= expandDirection i <= 1.

End Input.

(* ================================================================= *)
(** ** main.js *)

Module ReachGame.

(** The fields of [ReachGame] that [_loop] reads or writes.  [canvas] and
    [renderer] are DOM and WebGL handles; the canvas size that
    [renderer.getDimensions()] returns is an argument of [_loop]. *)
Record t : Type := mk {
  input : Input.t;
  game : Game.t;
  lastTime : R;
  isRunning : bool
}.

(** [new ReachGame()] *)
Definition new : t :=
  {| input := Input.new; game := Game.new; lastTime := 0; isRunning := false |}.










End ReachGame.

(* ================================================================= *)
(** ** Arithmetic of the numeric primitives *)

(** Case analysis on every [Math.max] / [Math.min] of the goal and of the
    hypotheses, then linear arithmetic. *)
Ltac minmax :=
  unfold Rmax, Rmin in *;
  repeat match goal with
         | |- context [Rle_dec ?a ?b] => destruct (Rle_dec a b)
         | H : context [Rle_dec ?a ?b] |- _ => destruct (Rle_dec a b)
         end;
  try lra.

(** Case analysis on the comparisons that guard the branches of the source. *)
Ltac branches :=
  repeat match goal with
         | |- context [Rlt_dec ?a ?b] => destruct (Rlt_dec a b)
         | |- context [Rle_dec ?a ?b] => destruct (Rle_dec a b)
         | |- context [Rge_dec ?a ?b] => destruct (Rge_dec a b)
         end.

Lemma exp_nonpos_le_1 (u : R) : u <= 0 -> 0 < exp u <= 1.
Proof.
  intros Hu. split; [apply exp_pos|].
  destruct (Req_dec u 0) as [->|Hne].
  - rewrite exp_0. lra.
  - rewrite <- exp_0. left. apply exp_increasing. lra.
Qed.

Lemma clamp_bounds (lo hi v : R) :
  lo <= hi -> lo <= Rmax lo (Rmin hi v) <= hi.
Proof. intros. minmax. Qed.

(* ================================================================= *)
(** ** Presence *)

Section PresenceFacts.

Import Presence.

Lemma presence_new_tuned (x0 y0 : R) : tuned (Presence.new x0 y0).
Proof. repeat split. Qed.

Lemma presence_new_bounded (x0 y0 : R) : bounded (Presence.new x0 y0).
Proof. unfold bounded; simpl; lra. Qed.

Lemma smoothing_range (dt : R) (p : Presence.t) :
  0 <= dt -> 0 <= radiusSmoothness p -> 0 <= smoothing dt p < 1.
Proof.
  intros Hdt Hk. unfold smoothing.
  assert (Hu : - radiusSmoothness p * dt <= 0) by nra.
  pose proof (exp_nonpos_le_1 _ Hu). lra.
Qed.

Lemma presence_update_consts (dt : R) (p : Presence.t) :
  x (update dt p) = x p /\ y (update dt p) = y p /\
  expandRate (update dt p) = expandRate p /\
  retractRate (update dt p) = retractRate p /\
  minRadius (update dt p) = minRadius p /\
  maxRadius (update dt p) = maxRadius p /\
  radiusSmoothness (update dt p) = radiusSmoothness p /\
  expandDirection (update dt p) = expandDirection p.
Proof.
  unfold update, approachTarget, clampTarget, advanceTarget.
  branches; simpl; repeat split.
Qed.

Lemma presence_update_targetRadius (dt : R) (p : Presence.t) :
  targetRadius (update dt p) =
  Rmax (minRadius p) (Rmin (maxRadius p) (targetRadius (advanceTarget dt p))).
Proof.
  unfold update, approachTarget, clampTarget, advanceTarget.
  branches; reflexivity.
Qed.

Lemma presence_update_radius (dt : R) (p : Presence.t) :
  radius (update dt p) =
  radius p + (targetRadius (update dt p) - radius p) * smoothing dt p.
Proof.
  unfold update, approachTarget, clampTarget, advanceTarget, smoothing.
  branches; reflexivity.
Qed.

Lemma presence_update_tuned (dt : R) (p : Presence.t) :
  tuned p -> tuned (update dt p).
Proof.
  unfold tuned. intros H.
  destruct (presence_update_consts dt p) as (_ & _ & -> & -> & -> & -> & -> & _).
  exact H.
Qed.

Lemma presence_update_bounded (dt : R) (p : Presence.t) :
  0 <= dt -> 0 <= radiusSmoothness p -> minRadius p <= maxRadius p ->
  minRadius p <= radius p <= maxRadius p ->
  bounded (update dt p).
Proof.
  intros Hdt Hk Hmm Hr. unfold bounded.
  destruct (presence_update_consts dt p) as (_ & _ & _ & _ & -> & -> & _ & _).
  rewrite presence_update_radius.
  pose proof (smoothing_range dt p Hdt Hk) as Ht.
  rewrite presence_update_targetRadius.
  pose proof (clamp_bounds (minRadius p) (maxRadius p)
                (targetRadius (advanceTarget dt p)) Hmm) as Hc.
  split; [nra | exact Hc].
Qed.

Lemma getOverextension_range (th : R) (p : Presence.t) :
  radius p <= maxRadius p -> 0 <= getOverextension th p <= 1.
Proof.
  intros Hr. unfold getOverextension.
  destruct (Rle_dec (radius p) th) as [|Hgt]; [lra|].
  assert (0 < (radius p - th) / (maxRadius p - th)).
  { apply Rdiv_lt_0_compat; lra. }
  minmax.
Qed.

End PresenceFacts.

(* ================================================================= *)
(** ** One fixed tick *)

Section TickFacts.

Import Game.

Lemma fixedUpdate_stages (dt d : R) (g : Game.t) :
  _fixedUpdate dt d g = checkFail (checkWin (beforeChecks dt d g)).
Proof. reflexivity. Qed.

Lemma fixedUpdate_gameTime (dt d : R) (g : Game.t) :
  gameTime (_fixedUpdate dt d g) = gameTime g + dt.
Proof.
  unfold _fixedUpdate, checkFail, checkWin, updateClarity.
  branches; reflexivity.
Qed.

Lemma fixedUpdate_sustainableThreshold (dt d : R) (g : Game.t) :
  sustainableThreshold (_fixedUpdate dt d g) =
  Rmax 0.1 (sustainableThreshold g - thresholdDecayRate g * dt).
Proof.
  unfold _fixedUpdate, checkFail, checkWin, updateClarity.
  branches; reflexivity.
Qed.

Lemma fixedUpdate_presence (dt d : R) (g : Game.t) :
  presence (_fixedUpdate dt d g) =
  Presence.update dt (Presence.setExpandDirection d (presence g)).
Proof.
  unfold _fixedUpdate, checkFail, checkWin, updateClarity.
  branches; reflexivity.
Qed.

Lemma fixedUpdate_clarity (dt d : R) (g : Game.t) :
  clarity (_fixedUpdate dt d g) = clarity (beforeChecks dt d g).
Proof.
  rewrite fixedUpdate_stages. unfold checkFail, checkWin.
  branches; reflexivity.
Qed.

(** What a tick leaves alone: the wall clock, the accumulator and the
    constants. *)
Lemma fixedUpdate_frame (dt d : R) (g : Game.t) :
  time (_fixedUpdate dt d g) = time g /\
  accumulator (_fixedUpdate dt d g) = accumulator g /\
  winTime (_fixedUpdate dt d g) = winTime g /\
  thresholdDecayRate (_fixedUpdate dt d g) = thresholdDecayRate g /\
  clarityRecoveryRate (_fixedUpdate dt d g) = clarityRecoveryRate g /\
  clarityDecayRate (_fixedUpdate dt d g) = clarityDecayRate g /\
  clarityMinRecovery (_fixedUpdate dt d g) = clarityMinRecovery g /\
  failureClarity (_fixedUpdate dt d g) = failureClarity g /\
  fixedDt (_fixedUpdate dt d g) = fixedDt g.
Proof.
  unfold _fixedUpdate, checkFail, checkWin, updateClarity.
  branches; repeat split.
Qed.

Lemma fixedUpdate_tuned (dt d : R) (g : Game.t) :
  tuned g -> tuned (_fixedUpdate dt d g).
Proof.
  unfold tuned. intros H.
  destruct (fixedUpdate_frame dt d g)
    as (_ & _ & -> & -> & -> & -> & -> & -> & ->).
  exact H.
Qed.

(** The state after the checks, from the two conditions. *)
Lemma fixedUpdate_state (dt d : R) (g : Game.t) :
  let g' := _fixedUpdate dt d g in
  (clarity g' <= failureClarity g' -> state g' = FAILED) /\
  (failureClarity g' < clarity g' -> gameTime g' >= winTime g' ->
   state g' = WON) /\
  (failureClarity g' < clarity g' -> gameTime g' < winTime g' ->
   state g' = state g).
Proof.
  cbv zeta. rewrite fixedUpdate_stages.
  assert (Hst : state (beforeChecks dt d g) = state g).
  { unfold beforeChecks, updateClarity. branches; reflexivity. }
  rewrite <- Hst. generalize (beforeChecks dt d g) as b. intros b.
  unfold checkFail, checkWin.
  branches; simpl; branches; simpl; repeat split; intros; try reflexivity;
    simpl in *; try lra.
Qed.

End TickFacts.

(* ================================================================= *)
(** ** The invariant *)

Section Invariant.

Import Game.

Lemma targetClarity_range (g : Game.t) :
  tuned g -> 0 <= gameTime g -> 0.3 <= targetClarity g <= 1.
Proof.
  intros (Hw & _ & _ & _ & Hm & _) Hgt. unfold targetClarity.
  rewrite Hw, Hm. minmax.
Qed.

Lemma updateClarity_range (dt ov : R) (g : Game.t) :
  tuned g -> 0 <= gameTime g -> 0 <= dt -> 0 <= clarity g <= 1 ->
  0 <= clarity (updateClarity dt ov g) <= 1.
Proof.
  intros Ht Hgt Hdt Hc.
  pose proof (targetClarity_range g Ht Hgt) as Htc.
  destruct Ht as (_ & _ & Hr & Hd & _).
  unfold updateClarity.
  destruct (Rlt_dec 0 ov) as [Hov|Hov]; simpl.
  - rewrite Hd. assert (0 <= 0.25 * ov * dt) by nra. minmax.
  - destruct (Rlt_dec (clarity g) (targetClarity g)); simpl; [|lra].
    rewrite Hr. minmax.
Qed.

Lemma inv_new : inv new.
Proof.
  unfold inv, tuned, Presence.tuned, Presence.bounded; simpl.
  repeat split; lra.
Qed.

Lemma inv_fixedUpdate (dt d : R) (g : Game.t) :
  0 <= dt -> inv g -> inv (_fixedUpdate dt d g).
Proof.
  intros Hdt (Ht & Hpt & Hpb & Hc & Hth & Hgt).
  unfold inv.
  rewrite fixedUpdate_presence, fixedUpdate_gameTime,
    fixedUpdate_sustainableThreshold, fixedUpdate_clarity.
  split; [apply fixedUpdate_tuned; exact Ht|].
  set (p := Presence.setExpandDirection d (presence g)).
  assert (Hpt' : Presence.tuned p) by exact Hpt.
  split; [apply presence_update_tuned; exact Hpt'|].
  split.
  { destruct Hpt' as (_ & _ & Hmin & Hmax & Hk).
    apply presence_update_bounded; try exact Hdt.
    - rewrite Hk; lra.
    - rewrite Hmin, Hmax; lra.
    - exact (proj1 Hpb). }
  split.
  { unfold beforeChecks. apply updateClarity_range.
    - exact Ht.
    - simpl. lra.
    - exact Hdt.
    - exact Hc. }
  split; [|lra].
  destruct Ht as (_ & Hrate & _). rewrite Hrate. minmax.
Qed.

Lemma inv_loopBody (d : R) (g : Game.t) : inv g -> inv (loopBody d g).
Proof.
  intros Hg.
  assert (Hdt : 0 <= fixedDt g).
  { destruct Hg as ((_ & _ & _ & _ & _ & _ & ->) & _). lra. }
  exact (inv_fixedUpdate (fixedDt g) d g Hdt Hg).
Qed.

Lemma inv_ticks (n : nat) (d : R) (g : Game.t) : inv g -> inv (ticks n d g).
Proof.
  intros Hg. induction n as [|n IH]; [exact Hg|].
  change (ticks (S n) d g) with (loopBody d (ticks n d g)).
  apply inv_loopBody. exact IH.
Qed.

Lemma inv_enter (dt : R) (g : Game.t) : inv g -> inv (enter dt g).
Proof. intros H. exact H. Qed.

Lemma inv_reset (g : Game.t) : inv g -> inv (reset g).
Proof.
  intros (Ht & _). unfold inv. split; [exact Ht|].
  unfold Presence.tuned, Presence.bounded; simpl. repeat split; lra.
Qed.

End Invariant.

(* ================================================================= *)
(** ** The [while] loop of [update] *)

Section Loop.

Import Game.

Lemma ticks_succ_r (n : nat) (d : R) (g : Game.t) :
  ticks (S n) d g = ticks n d (loopBody d g).
Proof. unfold ticks. apply Nat.iter_succ_r. Qed.

Lemma loopBody_fixedDt (d : R) (g : Game.t) :
  fixedDt (loopBody d g) = fixedDt g.
Proof.
  unfold loopBody. simpl.
  destruct (fixedUpdate_frame (fixedDt g) d g) as (_ & _ & _ & _ & _ & _ & _ & _ & H).
  exact H.
Qed.

Lemma loopBody_accumulator (d : R) (g : Game.t) :
  accumulator (loopBody d g) = accumulator g - fixedDt g.
Proof.
  unfold loopBody. simpl.
  destruct (fixedUpdate_frame (fixedDt g) d g) as (_ & -> & _ & _ & _ & _ & _ & _ & ->).
  reflexivity.
Qed.

Lemma loopBody_gameTime (d : R) (g : Game.t) :
  gameTime (loopBody d g) = gameTime g + fixedDt g.
Proof. unfold loopBody. simpl. apply fixedUpdate_gameTime. Qed.

Lemma ticks_fixedDt (n : nat) (d : R) (g : Game.t) :
  fixedDt (ticks n d g) = fixedDt g.
Proof.
  induction n as [|n IH]; [reflexivity|].
  change (ticks (S n) d g) with (loopBody d (ticks n d g)).
  rewrite loopBody_fixedDt. exact IH.
Qed.

Lemma ticks_accumulator (n : nat) (d : R) (g : Game.t) :
  accumulator (ticks n d g) = accumulator g - INR n * fixedDt g.
Proof.
  induction n as [|n IH].
  - simpl. lra.
  - change (ticks (S n) d g) with (loopBody d (ticks n d g)).
    rewrite loopBody_accumulator, ticks_fixedDt, IH, S_INR. lra.
Qed.

Lemma ticks_gameTime (n : nat) (d : R) (g : Game.t) :
  gameTime (ticks n d g) = gameTime g + INR n * fixedDt g.
Proof.
  induction n as [|n IH].
  - simpl. lra.
  - change (ticks (S n) d g) with (loopBody d (ticks n d g)).
    rewrite loopBody_gameTime, ticks_fixedDt, IH, S_INR. lra.
Qed.

(** The loop runs the body as long as a whole timestep is left, and
    every iteration is the same body with the same direction. *)
Lemma drain_ticks (fuel : nat) (d : R) (g g' : Game.t) :
  drain fuel d g = Some g' ->
  exists n : nat,
    (n <= fuel)%nat /\ g' = ticks n d g /\
    accumulator g' < fixedDt g' /\
    forall k : nat, (k < n)%nat ->
      accumulator (ticks k d g) >= fixedDt (ticks k d g).
Proof.
  revert g. induction fuel as [|fuel IH]; intros g H; simpl in H.
  - destruct (Rge_dec (accumulator g) (fixedDt g)) as [Hge|Hlt];
      [discriminate|].
    injection H as <-. exists 0%nat.
    repeat split; [lia | lra | intros k Hk; lia].
  - destruct (Rge_dec (accumulator g) (fixedDt g)) as [Hge|Hlt].
    + destruct (IH _ H) as (n & Hn & -> & Hacc & Hk).
      exists (S n). rewrite ticks_succ_r. repeat split; [lia | exact Hacc |].
      intros [|k] Hlt'; [exact Hge|].
      rewrite ticks_succ_r. apply Hk. lia.
    + injection H as <-. exists 0%nat.
      repeat split; [lia | lra | intros k Hk; lia].
Qed.

(** With a positive timestep the loop ends: [n] iterations are enough
    when the accumulator holds fewer than [n] timesteps. *)
Lemma drain_terminates (n : nat) (d : R) (g : Game.t) :
  0 < fixedDt g -> accumulator g < INR n * fixedDt g ->
  exists g', drain n d g = Some g'.
Proof.
  revert g. induction n as [|n IH]; intros g Hfd Hacc; simpl.
  - simpl in Hacc. destruct (Rge_dec (accumulator g) (fixedDt g)); [lra|].
    eexists; reflexivity.
  - destruct (Rge_dec (accumulator g) (fixedDt g)); [|eexists; reflexivity].
    apply IH.
    + rewrite loopBody_fixedDt. exact Hfd.
    + rewrite loopBody_accumulator, loopBody_fixedDt.
      rewrite S_INR in Hacc. lra.
Qed.

Lemma drain_fuel_mono (n m : nat) (d : R) (g g' : Game.t) :
  (n <= m)%nat -> drain n d g = Some g' -> drain m d g = Some g'.
Proof.
  revert m g. induction n as [|n IH]; intros m g Hnm H; simpl in H.
  - destruct (Rge_dec (accumulator g) (fixedDt g)) as [Hge|Hlt];
      [discriminate|].
    destruct m; simpl; destruct (Rge_dec (accumulator g) (fixedDt g));
      try lra; exact H.
  - destruct m as [|m]; [lia|]. simpl.
    destruct (Rge_dec (accumulator g) (fixedDt g)); [|exact H].
    apply IH; [lia | exact H].
Qed.

Lemma drain_total (d : R) (g : Game.t) :
  0 < fixedDt g -> exists fuel g', drain fuel d g = Some g'.
Proof.
  intros Hfd.
  destruct (INR_unbounded (accumulator g / fixedDt g)) as [n Hn].
  exists n. apply drain_terminates; [exact Hfd|].
  apply Rmult_gt_compat_r with (r := fixedDt g) in Hn; [|lra].
  unfold Rdiv in Hn. rewrite Rmult_assoc, Rinv_l, Rmult_1_r in Hn; lra.
Qed.

End Loop.

(* ================================================================= *)
(** ** [update] and sequences of calls *)

Section Calls.

Import Game.

Lemma update_playing (fuel : nat) (dt d : R) (g : Game.t) :
  state g = PLAYING -> update fuel dt d g = drain fuel d (enter dt g).
Proof.
  intros Hs. unfold update.
  destruct (GameState_eq_dec (state g) PLAYING); [reflexivity | contradiction].
Qed.

Lemma update_not_playing (fuel : nat) (dt d : R) (g : Game.t) :
  state g <> PLAYING -> update fuel dt d g = Some g.
Proof.
  intros Hs. unfold update.
  destruct (GameState_eq_dec (state g) PLAYING); [contradiction | reflexivity].
Qed.

(** The result of a call is the entry state after some number of
    iterations of the loop body (none when the call returns early). *)
Lemma update_ticks (fuel : nat) (dt d : R) (g g' : Game.t) :
  update fuel dt d g = Some g' ->
  g' = g \/ exists n : nat, g' = ticks n d (enter dt g).
Proof.
  intros H. destruct (GameState_eq_dec (state g) PLAYING) as [Hs|Hs].
  - rewrite (update_playing _ _ _ _ Hs) in H.
    destruct (drain_ticks _ _ _ _ H) as (n & _ & -> & _).
    right. exists n. reflexivity.
  - rewrite (update_not_playing _ _ _ _ Hs) in H.
    injection H as <-. left. reflexivity.
Qed.

Lemma update_total (dt d : R) (g : Game.t) :
  0 < fixedDt g -> exists fuel g', update fuel dt d g = Some g'.
Proof.
  intros Hfd. destruct (GameState_eq_dec (state g) PLAYING) as [Hs|Hs].
  - destruct (drain_total d (enter dt g) Hfd) as (fuel & g' & H).
    exists fuel, g'. rewrite update_playing; assumption.
  - exists 0%nat, g. apply update_not_playing. exact Hs.
Qed.

Lemma update_fuel_mono (n m : nat) (dt d : R) (g g' : Game.t) :
  (n <= m)%nat -> update n dt d g = Some g' -> update m dt d g = Some g'.
Proof.
  intros Hnm. unfold update.
  destruct (GameState_eq_dec (state g) PLAYING); [|trivial].
  apply drain_fuel_mono. exact Hnm.
Qed.

Lemma inv_update (fuel : nat) (dt d : R) (g g' : Game.t) :
  inv g -> update fuel dt d g = Some g' -> inv g'.
Proof.
  intros Hg H. destruct (update_ticks _ _ _ _ _ H) as [->|[n ->]].
  - exact Hg.
  - apply inv_ticks, inv_enter. exact Hg.
Qed.

Lemma inv_fixedDt (g : Game.t) : inv g -> 0 < fixedDt g.
Proof. intros ((_ & _ & _ & _ & _ & _ & ->) & _). lra. Qed.

Lemma inv_run (fuel : nat) (calls : list (R * R)) (g g' : Game.t) :
  inv g -> run fuel calls g = Some g' -> inv g'.
Proof.
  revert g. induction calls as [|[dt d] rest IH]; intros g Hg H; simpl in H.
  - injection H as <-. exact Hg.
  - destruct (update fuel dt d g) as [g1|] eqn:Hu; [|discriminate].
    apply (IH g1); [|exact H]. exact (inv_update _ _ _ _ _ Hg Hu).
Qed.

Lemma run_fuel_mono (n m : nat) (calls : list (R * R)) (g g' : Game.t) :
  (n <= m)%nat -> run n calls g = Some g' -> run m calls g = Some g'.
Proof.
  intros Hnm. revert g. induction calls as [|[dt d] rest IH]; intros g H;
    simpl in *; [exact H|].
  destruct (update n dt d g) as [g1|] eqn:Hu; [|discriminate].
  rewrite (update_fuel_mono n m dt d g g1 Hnm Hu). apply IH. exact H.
Qed.

(** Every sequence of calls returns, given enough fuel. *)
Lemma run_total (calls : list (R * R)) (g : Game.t) :
  inv g -> exists fuel g', run fuel calls g = Some g'.
Proof.
  revert g. induction calls as [|[dt d] rest IH]; intros g Hg.
  - exists 0%nat, g. reflexivity.
  - destruct (update_total dt d g (inv_fixedDt g Hg)) as (f1 & g1 & H1).
    destruct (IH g1 (inv_update _ _ _ _ _ Hg H1)) as (f2 & g2 & H2).
    exists (Nat.max f1 f2), g2. simpl.
    rewrite (update_fuel_mono f1 (Nat.max f1 f2) dt d g g1);
      [|lia|exact H1].
    apply (run_fuel_mono f2); [lia | exact H2].
Qed.

Lemma inv_reachable (g : Game.t) : Reachable g -> inv g.
Proof.
  induction 1 as [|g g' fuel dt d _ IH _ Hu|g _ IH].
  - exact inv_new.
  - exact (inv_update _ _ _ _ _ IH Hu).
  - exact (inv_reset _ IH).
Qed.

Lemma inv_inRange (g : Game.t) : inv g -> inRange g.
Proof.
  intros (_ & _ & (Hr & _) & Hc & Hth & _). repeat split; lra.
Qed.

(** *** Monotone quantities *)

Lemma loopBody_monotone (d : R) (g : Game.t) :
  inv g ->
  sustainableThreshold (loopBody d g) <= sustainableThreshold g /\
  gameTime g <= gameTime (loopBody d g).
Proof.
  intros Hg. pose proof (inv_fixedDt g Hg) as Hfd.
  destruct Hg as ((_ & Hrate & _) & _ & _ & _ & Hth & _).
  rewrite loopBody_gameTime. split; [|lra].
  unfold loopBody. simpl. rewrite fixedUpdate_sustainableThreshold, Hrate.
  minmax.
Qed.

Lemma ticks_monotone (n : nat) (d : R) (g : Game.t) :
  inv g ->
  sustainableThreshold (ticks n d g) <= sustainableThreshold g /\
  gameTime g <= gameTime (ticks n d g).
Proof.
  intros Hg. induction n as [|n IH]; [simpl; lra|].
  change (ticks (S n) d g) with (loopBody d (ticks n d g)).
  pose proof (loopBody_monotone d (ticks n d g) (inv_ticks n d g Hg)). lra.
Qed.

Lemma update_monotone (fuel : nat) (dt d : R) (g g' : Game.t) :
  inv g -> update fuel dt d g = Some g' ->
  sustainableThreshold g' <= sustainableThreshold g /\
  gameTime g <= gameTime g'.
Proof.
  intros Hg H. destruct (update_ticks _ _ _ _ _ H) as [->|[n ->]]; [lra|].
  exact (ticks_monotone n d (enter dt g) (inv_enter dt g Hg)).
Qed.

Lemma run_monotone (fuel : nat) (calls : list (R * R)) (g g' : Game.t) :
  inv g -> run fuel calls g = Some g' ->
  sustainableThreshold g' <= sustainableThreshold g /\
  gameTime g <= gameTime g'.
Proof.
  revert g. induction calls as [|[dt d] rest IH]; intros g Hg H; simpl in H.
  - injection H as <-. lra.
  - destruct (update fuel dt d g) as [g1|] eqn:Hu; [|discriminate].
    pose proof (update_monotone _ _ _ _ _ Hg Hu).
    pose proof (IH g1 (inv_update _ _ _ _ _ Hg Hu) H). lra.
Qed.

End Calls.

(* ================================================================= *)
(** ** Calls whose number of ticks is known *)

Section ExactTicks.

Import Game.

(** The loop runs exactly [n] iterations when the accumulator holds at
    least [n] and fewer than [n + 1] timesteps. *)
Lemma drain_exact (n : nat) (d : R) (g : Game.t) :
  0 < fixedDt g ->
  INR n * fixedDt g <= accumulator g < INR (S n) * fixedDt g ->
  drain n d g = Some (ticks n d g).
Proof.
  revert g. induction n as [|n IH]; intros g Hfd Hacc.
  - simpl in *. destruct (Rge_dec (accumulator g) (fixedDt g)); [lra|].
    reflexivity.
  - rewrite ticks_succ_r. simpl drain.
    rewrite !S_INR in Hacc. pose proof (pos_INR n) as Hn.
    destruct (Rge_dec (accumulator g) (fixedDt g)) as [_|Hlt]; [|nra].
    apply IH.
    + rewrite loopBody_fixedDt. exact Hfd.
    + rewrite loopBody_accumulator, loopBody_fixedDt, S_INR. lra.
Qed.

Lemma update_exact (n : nat) (dt d : R) (g : Game.t) :
  state g = PLAYING -> 0 < fixedDt g ->
  INR n * fixedDt g <= accumulator g + dt < INR (S n) * fixedDt g ->
  update n dt d g = Some (ticks n d (enter dt g)).
Proof.
  intros Hs Hfd Hacc. rewrite update_playing by exact Hs.
  apply drain_exact; assumption.
Qed.

(** Every tick hands the direction of the call to the presence. *)
Lemma loopBody_presence (d : R) (g : Game.t) :
  presence (loopBody d g) =
  Presence.update (fixedDt g) (Presence.setExpandDirection d (presence g)).
Proof. unfold loopBody. simpl. apply fixedUpdate_presence. Qed.

Lemma loopBody_direction (d : R) (g : Game.t) :
  Presence.expandDirection (presence (loopBody d g)) = Rmax (-1) (Rmin 1 d).
Proof.
  rewrite loopBody_presence.
  destruct (presence_update_consts (fixedDt g)
              (Presence.setExpandDirection d (presence g)))
    as (_ & _ & _ & _ & _ & _ & _ & ->).
  reflexivity.
Qed.

(** [reset] restores every field but the accumulator. *)
Lemma reset_fields (g : Game.t) :
  tuned g -> reset g = set_accumulator new (accumulator g).
Proof.
  destruct g. unfold tuned, reset. simpl.
  intros (-> & -> & -> & -> & -> & -> & ->). reflexivity.
Qed.

(** A tick that ends at or past the win time ends in a terminal phase. *)
Lemma loopBody_terminal (d : R) (g : Game.t) :
  gameTime g + fixedDt g >= winTime g -> terminal (loopBody d g).
Proof.
  intros Hwin. unfold terminal, loopBody. simpl.
  destruct (fixedUpdate_state (fixedDt g) d g) as (Hfail & Hwon & _).
  cbv zeta in Hfail, Hwon.
  destruct (fixedUpdate_frame (fixedDt g) d g)
    as (_ & _ & Hw & _ & _ & _ & _ & _ & _).
  rewrite fixedUpdate_gameTime, Hw in Hwon.
  destruct (Rle_dec (clarity (_fixedUpdate (fixedDt g) d g))
              (failureClarity (_fixedUpdate (fixedDt g) d g))) as [Hle|Hgt].
  - right. exact (Hfail Hle).
  - left. apply Hwon; [lra | exact Hwin].
Qed.

End ExactTicks.

(* ================================================================= *)
(** ** Ticks of particular controllers *)

Section NearEnd.

Import Game.

Lemma presence_advanceTarget_cases (dt : R) (p : Presence.t) :
  let d := Presence.expandDirection p in
  let T := Presence.targetRadius (Presence.advanceTarget dt p) in
  (0 < d -> T = Presence.targetRadius p + Presence.expandRate p * d * dt) /\
  (d < 0 -> T = Presence.targetRadius p + Presence.retractRate p * d * dt) /\
  (d = 0 -> T = Presence.targetRadius p).
Proof.
  cbv zeta. unfold Presence.advanceTarget.
  branches; simpl; repeat split; intros; try reflexivity; lra.
Qed.

Lemma tickOverextension_eq (dt d : R) (g : Game.t) :
  tickOverextension dt d g =
  Presence.getOverextension (sustainableThreshold (_fixedUpdate dt d g))
    (presence (_fixedUpdate dt d g)).
Proof.
  rewrite fixedUpdate_sustainableThreshold, fixedUpdate_presence. reflexivity.
Qed.

(** Far out and still expanding, the presence stays far out. *)
Lemma expanded_presence (dt : R) (p : Presence.t) :
  0 <= dt -> Presence.tuned p ->
  0.5 <= Presence.radius p <= 0.6 -> Presence.targetRadius p = 0.6 ->
  let p' := Presence.update dt (Presence.setExpandDirection 1 p) in
  0.5 <= Presence.radius p' <= 0.6 /\ Presence.targetRadius p' = 0.6.
Proof.
  intros Hdt (He & _ & Hmin & Hmax & Hk) Hr HT. cbv zeta.
  set (q := Presence.setExpandDirection 1 p).
  assert (HT' : Presence.targetRadius (Presence.update dt q) = 0.6).
  { rewrite presence_update_targetRadius.
    destruct (presence_advanceTarget_cases dt q) as (Hpos & _).
    assert (Hd : Presence.expandDirection q = 1) by (simpl; minmax).
    rewrite Hpos by lra. rewrite Hd.
    change (Presence.targetRadius q) with (Presence.targetRadius p).
    change (Presence.expandRate q) with (Presence.expandRate p).
    change (Presence.minRadius q) with (Presence.minRadius p).
    change (Presence.maxRadius q) with (Presence.maxRadius p).
    rewrite HT, He, Hmin, Hmax. minmax. }
  split; [|exact HT'].
  assert (Hs : 0 <= Presence.smoothing dt q < 1).
  { apply smoothing_range; [exact Hdt|].
    change (Presence.radiusSmoothness q) with (Presence.radiusSmoothness p).
    rewrite Hk. lra. }
  rewrite presence_update_radius, HT'.
  change (Presence.radius q) with (Presence.radius p). nra.
Qed.

(** One tick of such a controller that keeps expanding: still far out,
    overextension at least 0.8, clarity down by 0.8 to 1 decay steps. *)
Lemma expanded_fixedUpdate (g : Game.t) :
  expanded g ->
  let g' := _fixedUpdate (1 / 60) 1 g in
  expanded g' /\
  Rmax 0 (clarity g - 0.25 / 60) <= clarity g' <= Rmax 0 (clarity g - 0.2 / 60) /\
  gameTime g' = gameTime g + 1 / 60.
Proof.
  intros (Ht & Hpt & Hr & HT & Hth). cbv zeta.
  assert (Hdt : 0 <= 1 / 60) by lra.
  destruct (expanded_presence (1 / 60) (presence g) Hdt Hpt Hr HT)
    as (Hr' & HT').
  cbv zeta in Hr', HT'. rewrite <- fixedUpdate_presence with (g := g) in Hr', HT'.
  assert (Hpt' : Presence.tuned (presence (_fixedUpdate (1 / 60) 1 g))).
  { rewrite fixedUpdate_presence. apply presence_update_tuned. exact Hpt. }
  assert (Hth' : sustainableThreshold (_fixedUpdate (1 / 60) 1 g) = 0.1).
  { rewrite fixedUpdate_sustainableThreshold, Hth.
    destruct Ht as (_ & -> & _). minmax. }
  split; [|split; [|apply fixedUpdate_gameTime]].
  { split; [apply fixedUpdate_tuned; exact Ht|].
    split; [exact Hpt'|]. split; [exact Hr'|]. split; [exact HT'|exact Hth']. }
  assert (Hov : 0.8 <= tickOverextension (1 / 60) 1 g <= 1).
  { rewrite tickOverextension_eq, Hth'. unfold Presence.getOverextension.
    destruct Hpt' as (_ & _ & _ & -> & _).
    set (r := Presence.radius (presence (_fixedUpdate (1 / 60) 1 g))) in *.
    destruct (Rle_dec r 0.1); [lra|].
    replace ((r - 0.1) / (0.6 - 0.1)) with (2 * r - 0.2) by lra. minmax. }
  rewrite fixedUpdate_clarity. unfold beforeChecks.
  set (ov := tickOverextension (1 / 60) 1 g) in *.
  unfold updateClarity. destruct (Rlt_dec 0 ov); [|lra]. simpl.
  destruct Ht as (_ & _ & _ & -> & _). minmax.
Qed.

Lemma expanded_loopBody (g : Game.t) :
  expanded g ->
  expanded (loopBody 1 g) /\
  Rmax 0 (clarity g - 0.25 / 60) <= clarity (loopBody 1 g)
    <= Rmax 0 (clarity g - 0.2 / 60) /\
  gameTime (loopBody 1 g) = gameTime g + 1 / 60 /\
  state (loopBody 1 g) = state (_fixedUpdate (1 / 60) 1 g).
Proof.
  intros Hs. pose proof (expanded_fixedUpdate g Hs) as H. cbv zeta in H.
  assert (Hfd : fixedDt g = 1 / 60).
  { destruct Hs as ((_ & _ & _ & _ & _ & _ & Hfd) & _). exact Hfd. }
  unfold loopBody. rewrite Hfd. cbv zeta.
  destruct H as (Hsat & Hc & Hg).
  split; [exact Hsat|]. split; [exact Hc|]. split; [exact Hg|reflexivity].
Qed.

Lemma nearEnd_expanded (c : R) : expanded (nearEnd c).
Proof.
  unfold expanded, tuned, Presence.tuned. simpl.
  repeat split; try reflexivity; lra.
Qed.

(** The tick of [nearEnd c]: clarity decays, and the win time is
    reached. *)
Lemma nearEnd_tick (c : R) :
  let g' := _fixedUpdate (1 / 60) 1 (nearEnd c) in
  Rmax 0 (c - 0.25 / 60) <= clarity g' <= Rmax 0 (c - 0.2 / 60) /\
  gameTime g' = 180 /\
  winTime g' = 180 /\ failureClarity g' = 0.15.
Proof.
  cbv zeta.
  destruct (expanded_fixedUpdate (nearEnd c) (nearEnd_expanded c))
    as (((Hw & _ & _ & _ & _ & Hf & _) & _) & Hc & Hg).
  split; [exact Hc|]. split; [rewrite Hg; simpl; lra|].
  split; [exact Hw | exact Hf].
Qed.

End NearEnd.

(** A fresh controller that is not steered is not overextended on its
    first tick. *)
Lemma fresh_idle_overextension (c : R) :
  Game.tickOverextension (1 / 60) 0 (Game.set_clarity Game.new c) = 0.
Proof.
  rewrite tickOverextension_eq, fixedUpdate_sustainableThreshold,
    fixedUpdate_presence.
  set (p := Presence.setExpandDirection 0 (Game.presence (Game.set_clarity Game.new c))).
  unfold Presence.getOverextension.
  rewrite presence_update_radius, presence_update_targetRadius.
  destruct (presence_advanceTarget_cases (1 / 60) p) as (_ & _ & Hzero).
  assert (Hd : Presence.expandDirection p = 0) by (simpl; minmax).
  rewrite (Hzero Hd).
  change (Presence.targetRadius p) with 0.15.
  change (Presence.radius p) with 0.15.
  change (Presence.minRadius p) with 0.05.
  change (Presence.maxRadius p) with 0.6.
  assert (Hc : Rmax 0.05 (Rmin 0.6 0.15) = 0.15) by minmax.
  rewrite Hc. simpl.
  assert (Hth : Rmax 0.1 (0.4 - 0.008 * (1 / 60)) = 0.4 - 0.008 * (1 / 60))
    by minmax.
  rewrite Hth.
  destruct (Rle_dec _ _) as [|Hn]; [reflexivity|]. exfalso. apply Hn. lra.
Qed.

(* ================================================================= *)
(** ** C1: both terminal conditions on one tick *)

(** The tick of [tieState] meets both terminal conditions. *)
Lemma tieState_tick_conditions :
  let g' := Game._fixedUpdate (1 / 60) 1 Game.tieState in
  Game.gameTime g' >= Game.winTime g' /\
  Game.clarity g' <= Game.failureClarity g'.
Proof.
  cbv zeta. destruct (nearEnd_tick 0.152) as (Hc & Hg & Hw & Hf).
  fold Game.tieState in Hc, Hg, Hw, Hf.
  rewrite Hg, Hw, Hf. split; [lra | minmax].
Qed.

(** C1, as stated, fails.  The controller [tieState] is PLAYING; its next
    fixed tick reaches the win time and takes clarity to the failure
    threshold or below, and the phase after the tick is FAILED, not WON. *)
Lemma tie_favours_winning_counterexample :
  let g' := Game._fixedUpdate (1 / 60) 1 Game.tieState in
  Game.state Game.tieState = PLAYING /\
  Game.gameTime g' >= Game.winTime g' /\
  Game.clarity g' <= Game.failureClarity g' /\
  Game.state g' = FAILED /\ Game.state g' <> WON.
Proof.
  cbv zeta. destruct tieState_tick_conditions as (Hwin & Hle).
  destruct (fixedUpdate_state (1 / 60) 1 Game.tieState) as (Hfail & _).
  cbv zeta in Hfail. specialize (Hfail Hle).
  repeat split; [exact Hwin | exact Hle | exact Hfail |].
  rewrite Hfail. discriminate.
Qed.

(** C1 (amended): on a fixed tick of a PLAYING controller where both
    terminal conditions hold after the clarity update (gameTime >= winTime
    and clarity <= failureClarity), the phase becomes FAILED: the win check
    runs first and the fail check, which runs after it, overrides its
    assignment. *)
Theorem tie_resolves_to_failed (dt direction : R) (g : Game.t) :
  let g' := Game._fixedUpdate dt direction g in
  Game.state g = PLAYING ->
  Game.gameTime g' >= Game.winTime g' ->
  Game.clarity g' <= Game.failureClarity g' ->
  Game.state (Game.checkWin (Game.beforeChecks dt direction g)) = WON /\
  g' = Game.checkFail (Game.checkWin (Game.beforeChecks dt direction g)) /\
  Game.state g' = FAILED.
Proof.
  cbv zeta. intros _ Hwin Hfail.
  destruct (fixedUpdate_state dt direction g) as (Hf & _).
  split; [|split; [reflexivity | exact (Hf Hfail)]].
  rewrite fixedUpdate_stages in Hwin.
  assert (Hg : forall b, Game.gameTime (Game.checkFail (Game.checkWin b)) = Game.gameTime b
                /\ Game.winTime (Game.checkFail (Game.checkWin b)) = Game.winTime b).
  { intros b. unfold Game.checkFail, Game.checkWin. branches; split; reflexivity. }
  destruct (Hg (Game.beforeChecks dt direction g)) as (Hg1 & Hg2).
  rewrite Hg1, Hg2 in Hwin.
  unfold Game.checkWin.
  destruct (Rge_dec _ _); [reflexivity | contradiction].
Qed.

Lemma tie_resolves_to_failed_witness :
  let g' := Game._fixedUpdate (1 / 60) 1 Game.tieState in
  Game.state Game.tieState = PLAYING /\
  Game.gameTime g' >= Game.winTime g' /\
  Game.clarity g' <= Game.failureClarity g' /\
  Game.state g' = FAILED.
Proof.
  cbv zeta. destruct tieState_tick_conditions as (Hw & Hc).
  split; [reflexivity|]. split; [exact Hw|]. split; [exact Hc|].
  exact (proj2 (proj2 (tie_resolves_to_failed (1 / 60) 1 Game.tieState
                         eq_refl Hw Hc))).
Defined.

(* ================================================================= *)
(** ** C2: ticks after the terminal transition *)

(** C2 fails on the code: the [while] loop of [update] does not look at
    the phase, so the ticks left in the accumulator run after the phase
    has become terminal.  [new Game(); update(181, 0)] drains 10860 ticks
    in one call; after the 10800th the game time is 180 = winTime and the
    phase is terminal, and the 60 ticks that follow take the game time to
    181. *)
Theorem update_ticks_past_terminal :
  let e := Game.enter 181 Game.new in
  let tick (z : Z) := Game.ticks (Z.to_nat z) 0 e in
  Game.update (Z.to_nat 10860) 181 0 Game.new = Some (tick 10860%Z) /\
  Game.terminal (tick 10800%Z) /\
  Game.gameTime (tick 10800%Z) = 180 /\
  Game.gameTime (tick 10801%Z) = 180 + 1 / 60 /\
  Game.gameTime (tick 10860%Z) = 181.
Proof.
  intros e tick. unfold tick.
  assert (HI : forall z : Z, (0 <= z)%Z -> INR (Z.to_nat z) = IZR z).
  { intros z Hz. rewrite INR_IZR_INZ, Z2Nat.id by exact Hz. reflexivity. }
  split.
  { apply update_exact; [reflexivity | simpl; lra |].
    rewrite S_INR, HI by lia. simpl. lra. }
  split.
  { replace (Z.to_nat 10800) with (S (Z.to_nat 10799)) by lia.
    change (Game.ticks (S (Z.to_nat 10799)) 0 e)
      with (Game.loopBody 0 (Game.ticks (Z.to_nat 10799) 0 e)).
    apply loopBody_terminal.
    rewrite ticks_gameTime, ticks_fixedDt.
    destruct (inv_ticks (Z.to_nat 10799) 0 e (inv_enter 181 Game.new inv_new))
      as ((-> & _) & _).
    rewrite HI by lia. simpl. lra. }
  rewrite !ticks_gameTime, !HI by lia. simpl. repeat split; lra.
Qed.

(** The terminal phase itself can change inside one call: won on one
    tick, failed on the next. *)
Lemma won_then_failed_in_one_call :
  let e := Game.enter 0.04 (Game.nearEnd 0.156) in
  Game.update 2 0.04 1 (Game.nearEnd 0.156) = Some (Game.ticks 2 1 e) /\
  Game.state (Game.ticks 1 1 e) = WON /\
  Game.state (Game.ticks 2 1 e) = FAILED.
Proof.
  intros e.
  split; [apply update_exact; [reflexivity | simpl; lra | simpl; lra]|].
  assert (Hexp : Game.expanded e) by exact (nearEnd_expanded 0.156).
  destruct (expanded_loopBody e Hexp) as (Hexp1 & Hc1 & Hg1 & Hs1).
  destruct (expanded_loopBody _ Hexp1) as (_ & _ & _ & Hs2).
  change (Game.ticks 1 1 e) with (Game.loopBody 1 e).
  change (Game.ticks 2 1 e) with (Game.loopBody 1 (Game.loopBody 1 e)).
  change (Game.clarity e) with 0.156 in Hc1.
  split.
  - rewrite Hs1.
    destruct (fixedUpdate_state (1 / 60) 1 e) as (_ & Hwon & _).
    destruct (expanded_fixedUpdate e Hexp)
      as (((Hw & _ & _ & _ & _ & Hf & _) & _) & Hc & Hg).
    cbv zeta in Hwon. change (Game.clarity e) with 0.156 in Hc.
    apply Hwon.
    + rewrite Hf. minmax.
    + rewrite Hw, Hg. change (Game.gameTime e) with (10799 / 60). lra.
  - rewrite Hs2.
    destruct (fixedUpdate_state (1 / 60) 1 (Game.loopBody 1 e)) as (Hfail & _).
    destruct (expanded_fixedUpdate _ Hexp1)
      as (((_ & _ & _ & _ & _ & Hf & _) & _) & Hc & _).
    cbv zeta in Hfail. apply Hfail.
    rewrite Hf. minmax.
Qed.

(* ================================================================= *)
(** ** C3: [update] on a terminal controller *)

(** C3: for every dt >= 0 and every direction, [update(dt, direction)] on
    a controller whose phase is WON or FAILED returns the controller as it
    was: no field of the controller or of its Presence changes.  The call
    returns before the loop, whatever the fuel. *)
Theorem update_terminal_noop (fuel : nat) (dt direction : R) (g : Game.t) :
  0 <= dt -> Game.terminal g -> Game.update fuel dt direction g = Some g.
Proof.
  intros _ Hterm. apply update_not_playing.
  destruct Hterm as [H|H]; rewrite H; discriminate.
Qed.

Lemma update_terminal_noop_witness :
  0 <= 0.1 /\
  Game.terminal (Game.set_state Game.new FAILED) /\
  Game.update 0 0.1 1 (Game.set_state Game.new FAILED)
  = Some (Game.set_state Game.new FAILED).
Proof.
  assert (Hdt : 0 <= 0.1) by lra.
  assert (Ht : Game.terminal (Game.set_state Game.new FAILED))
    by (right; reflexivity).
  split; [exact Hdt|]. split; [exact Ht|].
  exact (update_terminal_noop 0 0.1 1 _ Hdt Ht).
Defined.

(* ================================================================= *)
(** ** C4: the ranges of radius, clarity and threshold *)

(** C4: for every sequence of [update] calls with dt >= 0 and direction in
    [-1, 1], starting from the initial state, the sequence returns, and
    the state it returns has minRadius <= presence.radius <= maxRadius,
    0 <= clarity <= 1 and 0.1 <= sustainableThreshold <= 1. *)
Theorem ranges_after_updates (calls : list (R * R)) :
  Forall (fun c => 0 <= fst c /\ -1 <= snd c <= 1) calls ->
  (exists fuel g', Game.run fuel calls Game.new = Some g') /\
  (forall fuel g',
     Game.run fuel calls Game.new = Some g' ->
     (Presence.minRadius (Game.presence g')
        <= Presence.radius (Game.presence g')
        <= Presence.maxRadius (Game.presence g')) /\
     0 <= Game.clarity g' <= 1 /\
     0.1 <= Game.sustainableThreshold g' <= 1).
Proof.
  intros _. split.
  - exact (run_total calls Game.new inv_new).
  - intros fuel g' H.
    exact (inv_inRange g' (inv_run fuel calls Game.new g' inv_new H)).
Qed.

Lemma ranges_after_updates_witness :
  Forall (fun c => 0 <= fst c /\ -1 <= snd c <= 1) [(0.02, 1); (0.1, -1)] /\
  exists fuel g',
    Game.run fuel [(0.02, 1); (0.1, -1)] Game.new = Some g' /\
    0 <= Game.clarity g' <= 1.
Proof.
  assert (H : Forall (fun c => 0 <= fst c /\ -1 <= snd c <= 1)
                [(0.02, 1); (0.1, -1)]).
  { apply Forall_cons; [simpl; lra|].
    apply Forall_cons; [simpl; lra|]. apply Forall_nil. }
  split; [exact H|].
  destruct (ranges_after_updates _ H) as ((fuel & g' & Hrun) & Hall).
  exists fuel, g'. split; [exact Hrun|].
  exact (proj1 (proj2 (Hall fuel g' Hrun))).
Defined.

(* ================================================================= *)
(** ** C5: [reset] against the constructor *)

(** C5 fails on the code: [reset] assigns presence, state, time, gameTime,
    clarity and sustainableThreshold, and leaves [accumulator], which the
    constructor sets to 0.  After [new Game(); update(0.01, 0); reset()]
    the accumulator still holds 0.01, so the controller differs from a
    newly constructed one, in that field and in no other. *)
Theorem reset_leaves_accumulator :
  exists g1 : Game.t,
    Game.update 0 0.01 0 Game.new = Some g1 /\
    Game.Reachable g1 /\
    Game.accumulator (Game.reset g1) = 0.01 /\
    Game.accumulator Game.new = 0 /\
    Game.reset g1 <> Game.new /\
    Game.set_accumulator (Game.reset g1) 0 = Game.new.
Proof.
  exists (Game.enter 0.01 Game.new).
  assert (Hu : Game.update 0 0.01 0 Game.new = Some (Game.enter 0.01 Game.new)).
  { apply (update_exact 0); [reflexivity | simpl; lra | simpl; lra]. }
  split; [exact Hu|].
  split.
  { apply (Game.reach_update Game.new _ 0 0.01 0);
      [exact Game.reach_new | lra | exact Hu]. }
  assert (Hacc : Game.accumulator (Game.reset (Game.enter 0.01 Game.new)) = 0.01).
  { simpl. lra. }
  split; [exact Hacc|]. split; [reflexivity|]. split.
  - intros Heq. rewrite Heq in Hacc. simpl in Hacc. lra.
  - reflexivity.
Qed.

(* ================================================================= *)
(** ** C6: [getOverextension] *)

(** C6: for a Presence with minRadius <= radius <= maxRadius and any
    threshold, [getOverextension(threshold)] is 0 when radius <= threshold
    and min(1, (radius - threshold) / (maxRadius - threshold)) otherwise;
    it is 0 when threshold = maxRadius, and exactly 1 when
    radius = maxRadius and threshold = minRadius (the two bounds of a
    constructed Presence differ: 0.05 < 0.6). *)
Theorem getOverextension_spec (threshold : R) (p : Presence.t) :
  Presence.minRadius p <= Presence.radius p <= Presence.maxRadius p ->
  (Presence.radius p <= threshold ->
   Presence.getOverextension threshold p = 0) /\
  (threshold < Presence.radius p ->
   Presence.getOverextension threshold p =
   Rmin 1 ((Presence.radius p - threshold) / (Presence.maxRadius p - threshold))) /\
  (threshold = Presence.maxRadius p ->
   Presence.getOverextension threshold p = 0) /\
  (Presence.minRadius p < Presence.maxRadius p ->
   Presence.radius p = Presence.maxRadius p ->
   threshold = Presence.minRadius p ->
   Presence.getOverextension threshold p = 1).
Proof.
  intros Hr. unfold Presence.getOverextension.
  repeat split; intros.
  - destruct (Rle_dec _ _); [reflexivity | lra].
  - destruct (Rle_dec _ _); [lra | reflexivity].
  - destruct (Rle_dec _ _); [reflexivity | lra].
  - destruct (Rle_dec _ _); [lra|].
    replace ((Presence.radius p - threshold) / (Presence.maxRadius p - threshold))
      with 1; [minmax|].
    subst threshold. rewrite H0. field. lra.
Qed.

Lemma getOverextension_spec_witness :
  let p := Presence.set_radius (Presence.new 0.5 0.5) 0.6 in
  (Presence.minRadius p <= Presence.radius p <= Presence.maxRadius p) /\
  Presence.getOverextension 0.7 p = 0 /\
  Presence.getOverextension 0.6 p = 0 /\
  Presence.getOverextension 0.05 p = 1.
Proof.
  cbv zeta.
  assert (Hr : Presence.minRadius (Presence.set_radius (Presence.new 0.5 0.5) 0.6)
               <= Presence.radius (Presence.set_radius (Presence.new 0.5 0.5) 0.6)
               <= Presence.maxRadius (Presence.set_radius (Presence.new 0.5 0.5) 0.6))
    by (simpl; lra).
  split; [exact Hr|].
  split; [|split].
  - apply (proj1 (getOverextension_spec 0.7 _ Hr)). simpl; lra.
  - apply (proj1 (proj2 (proj2 (getOverextension_spec 0.6 _ Hr)))). reflexivity.
  - apply (proj2 (proj2 (proj2 (getOverextension_spec 0.05 _ Hr))));
      simpl; try reflexivity; lra.
Defined.

(* ================================================================= *)
(** ** C7: [Presence.update] *)

(** C7: for every dt >= 0, [Presence.update(dt)] first moves targetRadius
    by expandRate*direction*dt when direction > 0, by
    retractRate*direction*dt when direction < 0, and not at all when
    direction = 0; then clamps it to [minRadius, maxRadius]; then sets
    radius to radius + (targetRadius - radius) * (1 - e^(-smoothness*dt)).
    The new radius lies between the old radius and the target (no
    overshoot) and reaches the target only if it was already there
    (smoothness is 8 in every constructed Presence; 0 <= smoothness is
    all the proof needs). *)
Theorem presence_update_spec (dt : R) (p : Presence.t) :
  0 <= dt -> 0 <= Presence.radiusSmoothness p ->
  let d := Presence.expandDirection p in
  let p' := Presence.update dt p in
  exists advanced : R,
    (0 < d -> advanced = Presence.targetRadius p + Presence.expandRate p * d * dt) /\
    (d < 0 -> advanced = Presence.targetRadius p + Presence.retractRate p * d * dt) /\
    (d = 0 -> advanced = Presence.targetRadius p) /\
    Presence.targetRadius p' =
      Rmax (Presence.minRadius p) (Rmin (Presence.maxRadius p) advanced) /\
    Presence.radius p' =
      Presence.radius p +
      (Presence.targetRadius p' - Presence.radius p) *
      (1 - exp (- Presence.radiusSmoothness p * dt)) /\
    (Presence.radius p <= Presence.targetRadius p' ->
     Presence.radius p <= Presence.radius p' <= Presence.targetRadius p') /\
    (Presence.targetRadius p' <= Presence.radius p ->
     Presence.targetRadius p' <= Presence.radius p' <= Presence.radius p) /\
    (Presence.radius p <> Presence.targetRadius p' ->
     Presence.radius p' <> Presence.targetRadius p').
Proof.
  intros Hdt Hk. cbv zeta.
  exists (Presence.targetRadius (Presence.advanceTarget dt p)).
  destruct (presence_advanceTarget_cases dt p) as (Hpos & Hneg & Hzero).
  split; [exact Hpos|]. split; [exact Hneg|]. split; [exact Hzero|].
  split; [apply presence_update_targetRadius|].
  pose proof (presence_update_radius dt p) as Hr.
  pose proof (smoothing_range dt p Hdt Hk) as Ht.
  unfold Presence.smoothing in Hr, Ht.
  split; [exact Hr|].
  set (T := Presence.targetRadius (Presence.update dt p)) in *.
  set (s := 1 - exp (- Presence.radiusSmoothness p * dt)) in *.
  rewrite Hr. repeat split; intros; nra.
Qed.

Lemma presence_update_spec_witness :
  let p := Presence.setExpandDirection 1 (Presence.new 0.5 0.5) in
  0 <= 1 / 60 /\
  0 <= Presence.radiusSmoothness p /\
  Presence.targetRadius (Presence.update (1 / 60) p) = 0.152 /\
  0.15 <= Presence.radius (Presence.update (1 / 60) p) <= 0.152 /\
  Presence.radius (Presence.update (1 / 60) p) <> 0.152.
Proof.
  intros p.
  assert (Hdt : 0 <= 1 / 60) by lra.
  assert (Hk : 0 <= Presence.radiusSmoothness p) by (simpl; lra).
  split; [exact Hdt|]. split; [exact Hk|].
  destruct (presence_update_spec (1 / 60) p Hdt Hk)
    as (adv & Hpos & _ & _ & HT & _ & Hup & _ & Hne).
  assert (Hd : Presence.expandDirection p = 1) by (simpl; minmax).
  rewrite Hd in Hpos.
  change (Presence.targetRadius p) with 0.15 in Hpos.
  change (Presence.expandRate p) with 0.12 in Hpos.
  change (Presence.minRadius p) with 0.05 in HT.
  change (Presence.maxRadius p) with 0.6 in HT.
  change (Presence.radius p) with 0.15 in Hup, Hne.
  rewrite Hpos in HT by lra.
  assert (Hc : Rmax 0.05 (Rmin 0.6 (0.15 + 0.12 * 1 * (1 / 60))) = 0.152)
    by minmax.
  rewrite Hc in HT. rewrite HT in Hup, Hne.
  split; [exact HT|]. split; [apply Hup; lra | apply Hne; lra].
Defined.

(* ================================================================= *)
(** ** C8: clarity when not overextended *)

(** C8: on a fixed tick whose overextension is 0, clarity does not
    decrease.  With targetClarity = max(clarityMinRecovery,
    1 - (gameTime / winTime) * 0.3), gameTime being the tick's own
    (already advanced) game time, clarity grows by
    min(clarityRecoveryRate * dt, targetClarity - clarity) when it is
    below targetClarity and is left exactly as it was when it is at or
    above targetClarity. *)
Theorem clarity_recovers_without_overextension
    (dt direction : R) (g : Game.t) :
  0 <= dt -> 0 <= Game.clarityRecoveryRate g ->
  Game.tickOverextension dt direction g = 0 ->
  let g' := Game._fixedUpdate dt direction g in
  let targetClarity :=
    Rmax (Game.clarityMinRecovery g)
         (1 - (Game.gameTime g' / Game.winTime g) * 0.3) in
  Game.clarity g <= Game.clarity g' /\
  (Game.clarity g < targetClarity ->
   Game.clarity g' =
   Game.clarity g +
   Rmin (Game.clarityRecoveryRate g * dt) (targetClarity - Game.clarity g)) /\
  (Game.clarity g >= targetClarity -> Game.clarity g' = Game.clarity g).
Proof.
  intros Hdt Hrate Hov. cbv zeta.
  rewrite fixedUpdate_clarity, fixedUpdate_gameTime.
  unfold Game.beforeChecks. rewrite Hov. unfold Game.updateClarity.
  destruct (Rlt_dec 0 0) as [Habs|_]; [lra|].
  change (Game.targetClarity (Game.beforeClarity dt direction g))
    with (Rmax (Game.clarityMinRecovery g)
               (1 - (Game.gameTime g + dt) / Game.winTime g * 0.3)).
  change (Game.clarity (Game.beforeClarity dt direction g))
    with (Game.clarity g).
  change (Game.clarityRecoveryRate (Game.beforeClarity dt direction g))
    with (Game.clarityRecoveryRate g).
  set (T := Rmax _ _).
  assert (Hstep : 0 <= Game.clarityRecoveryRate g * dt) by nra.
  destruct (Rlt_dec (Game.clarity g) T) as [Hlt|Hge]; simpl.
  - repeat split; intros; minmax.
  - repeat split; intros; lra.
Qed.

Lemma clarity_recovers_without_overextension_witness :
  let g := Game.set_clarity Game.new 0.5 in
  let g' := Game._fixedUpdate (1 / 60) 0 g in
  0 <= 1 / 60 /\ 0 <= Game.clarityRecoveryRate g /\
  Game.tickOverextension (1 / 60) 0 g = 0 /\
  Game.clarity g <= Game.clarity g' /\
  Game.clarity g' = 0.5025.
Proof.
  intros g g'.
  assert (Hdt : 0 <= 1 / 60) by lra.
  assert (Hrate : 0 <= Game.clarityRecoveryRate g) by (simpl; lra).
  pose proof (fresh_idle_overextension 0.5) as Hov. fold g in Hov.
  split; [exact Hdt|]. split; [exact Hrate|]. split; [exact Hov|].
  destruct (clarity_recovers_without_overextension (1 / 60) 0 g Hdt Hrate Hov)
    as (Hle & Hbelow & _).
  fold g' in Hle, Hbelow. split; [exact Hle|].
  assert (Hgt : Game.gameTime g' = 1 / 60).
  { unfold g'. rewrite fixedUpdate_gameTime. simpl. lra. }
  rewrite Hgt in Hbelow.
  change (Game.clarity g) with 0.5 in Hbelow.
  change (Game.clarityMinRecovery g) with 0.3 in Hbelow.
  change (Game.clarityRecoveryRate g) with 0.15 in Hbelow.
  change (Game.winTime g) with 180 in Hbelow.
  rewrite Hbelow; minmax.
Defined.

(* ================================================================= *)
(** ** C9: monotone threshold and game time *)

(** C9: from any state the controller can be in, every sequence of
    [update] calls with dt >= 0 (and no reset) returns, and the state it
    returns has a sustainableThreshold no larger and a gameTime no smaller
    than the state it started from. *)
Theorem threshold_and_gameTime_monotone (calls : list (R * R)) (g : Game.t) :
  Game.Reachable g ->
  Forall (fun c => 0 <= fst c) calls ->
  (exists fuel g', Game.run fuel calls g = Some g') /\
  (forall fuel g',
     Game.run fuel calls g = Some g' ->
     Game.sustainableThreshold g' <= Game.sustainableThreshold g /\
     Game.gameTime g <= Game.gameTime g').
Proof.
  intros Hg _. pose proof (inv_reachable g Hg) as Hinv. split.
  - exact (run_total calls g Hinv).
  - intros fuel g' H. exact (run_monotone fuel calls g g' Hinv H).
Qed.

Lemma threshold_and_gameTime_monotone_witness :
  Game.Reachable Game.new /\
  Forall (fun c => 0 <= fst c) [(0.02, 1); (0.1, -1)] /\
  exists fuel g',
    Game.run fuel [(0.02, 1); (0.1, -1)] Game.new = Some g' /\
    Game.sustainableThreshold g' <= Game.sustainableThreshold Game.new /\
    Game.gameTime Game.new <= Game.gameTime g'.
Proof.
  assert (H : Forall (fun c : R * R => 0 <= fst c) [(0.02, 1); (0.1, -1)]).
  { apply Forall_cons; [simpl; lra|].
    apply Forall_cons; [simpl; lra|]. apply Forall_nil. }
  split; [exact Game.reach_new|]. split; [exact H|].
  destruct (threshold_and_gameTime_monotone _ Game.new Game.reach_new H)
    as ((fuel & g' & Hrun) & Hall).
  exists fuel, g'. split; [exact Hrun|]. exact (Hall fuel g' Hrun).
Defined.

(* ================================================================= *)
(** ** C10: one direction per call *)

(** C10: a call [update(dt, direction)] on a PLAYING controller returns
    (the timestep being positive), and what it returns is the entry state
    after some number [n] of loop iterations, each of which is the loop
    body run with the call's own [direction]: the presence of every
    intermediate state is updated with [direction] (clamped to [-1, 1]),
    the loop leaves less than one timestep in the accumulator, and it ran
    because every earlier state held at least one. *)
Theorem update_applies_one_direction (dt direction : R) (g : Game.t) :
  Game.state g = PLAYING -> 0 < Game.fixedDt g ->
  (exists fuel g', Game.update fuel dt direction g = Some g') /\
  (forall fuel g',
     Game.update fuel dt direction g = Some g' ->
     exists n : nat,
       g' = Game.ticks n direction (Game.enter dt g) /\
       Game.accumulator g' < Game.fixedDt g' /\
       forall k : nat, (k < n)%nat ->
         let s := Game.ticks k direction (Game.enter dt g) in
         let s' := Game.ticks (S k) direction (Game.enter dt g) in
         Game.accumulator s >= Game.fixedDt s /\
         s' = Game.set_accumulator
                (Game._fixedUpdate (Game.fixedDt s) direction s)
                (Game.accumulator s - Game.fixedDt s) /\
         Game.presence s' =
           Presence.update (Game.fixedDt s)
             (Presence.setExpandDirection direction (Game.presence s)) /\
         Presence.expandDirection (Game.presence s') =
           Rmax (-1) (Rmin 1 direction)).
Proof.
  intros Hs Hfd. split; [exact (update_total dt direction g Hfd)|].
  intros fuel g' H. rewrite update_playing in H by exact Hs.
  destruct (drain_ticks _ _ _ _ H) as (n & _ & -> & Hacc & Hk).
  exists n. split; [reflexivity|]. split; [exact Hacc|].
  intros k Hlt. cbv zeta.
  set (s := Game.ticks k direction (Game.enter dt g)).
  change (Game.ticks (S k) direction (Game.enter dt g))
    with (Game.loopBody direction s).
  split; [exact (Hk k Hlt)|].
  split; [|split; [apply loopBody_presence | apply loopBody_direction]].
  unfold Game.loopBody. cbv zeta.
  destruct (fixedUpdate_frame (Game.fixedDt s) direction s)
    as (_ & -> & _ & _ & _ & _ & _ & _ & ->).
  reflexivity.
Qed.

Lemma update_applies_one_direction_witness :
  Game.state Game.new = PLAYING /\ 0 < Game.fixedDt Game.new /\
  Game.update 2 0.04 1 Game.new
  = Some (Game.ticks 2 1 (Game.enter 0.04 Game.new)) /\
  exists n : nat,
    Game.ticks 2 1 (Game.enter 0.04 Game.new)
    = Game.ticks n 1 (Game.enter 0.04 Game.new) /\
    Game.accumulator (Game.ticks 2 1 (Game.enter 0.04 Game.new)) < 1 / 60.
Proof.
  assert (Hs : Game.state Game.new = PLAYING) by reflexivity.
  assert (Hfd : 0 < Game.fixedDt Game.new) by (simpl; lra).
  assert (Hu : Game.update 2 0.04 1 Game.new
               = Some (Game.ticks 2 1 (Game.enter 0.04 Game.new))).
  { apply update_exact; [exact Hs | exact Hfd | simpl; lra]. }
  split; [exact Hs|]. split; [exact Hfd|]. split; [exact Hu|].
  destruct (proj2 (update_applies_one_direction 0.04 1 Game.new Hs Hfd) _ _ Hu)
    as (n & Hn & Hacc & _).
  exists n. split; [exact Hn|].
  rewrite ticks_fixedDt in Hacc. exact Hacc.
Defined.

(* ================================================================= *)
(** ** Further properties of the controller *)

Section Reachability.

Import Game.

Lemma enter_frame (dt : R) (g : Game.t) :
  inv (enter dt g) <-> inv g.
Proof. split; intros H; exact H. Qed.


(** An invariant of the loop is an invariant of [update]: it has to
    survive the entry to the loop and every tick that the loop runs. *)
Lemma update_preserves (P : Game.t -> Prop) (fuel : nat) (dt d : R)
    (g g' : Game.t) :
  (state g = PLAYING -> P (enter dt g)) ->
  (forall s, inv s -> P s -> accumulator s >= fixedDt s -> P (loopBody d s)) ->
  inv g -> P g -> update fuel dt d g = Some g' -> P g'.
Proof.
  intros Henter Htick Hinv HP H.
  destruct (GameState_eq_dec (state g) PLAYING) as [Hs|Hs].
  - rewrite update_playing in H by exact Hs.
    destruct (drain_ticks _ _ _ _ H) as (n & _ & -> & _ & Hk).
    clear H. induction n as [|n IH]; [exact (Henter Hs)|].
    change (ticks (S n) d (enter dt g)) with (loopBody d (ticks n d (enter dt g))).
    apply Htick.
    + apply inv_ticks, inv_enter. exact Hinv.
    + apply IH. intros k Hlt. apply Hk. lia.
    + apply Hk. lia.
  - rewrite update_not_playing in H by exact Hs. injection H as <-. exact HP.
Qed.

Lemma run_preserves (Q : R * R -> Prop) (P : Game.t -> Prop) (fuel : nat)
    (calls : list (R * R)) (g g' : Game.t) :
  (forall s dt d, Q (dt, d) -> inv s -> P s -> state s = PLAYING ->
                  P (enter dt s)) ->
  (forall s dt d, Q (dt, d) -> inv s -> P s ->
                  accumulator s >= fixedDt s -> P (loopBody d s)) ->
  Forall Q calls -> inv g -> P g -> run fuel calls g = Some g' -> P g'.
Proof.
  intros Henter Htick HQ. revert g.
  induction HQ as [|[dt d] rest Hq _ IH]; intros g Hinv HP H; simpl in H.
  - injection H as <-. exact HP.
  - destruct (update fuel dt d g) as [g1|] eqn:Hu; [|discriminate].
    apply (IH g1); [exact (inv_update _ _ _ _ _ Hinv Hu) | | exact H].
    apply (update_preserves P fuel dt d g g1); try assumption.
    + intros Hs. apply (Henter g dt d); assumption.
    + intros s His HPs Hacc. apply (Htick s dt d); assumption.
Qed.

Lemma Reachable_preserves (P : Game.t -> Prop) :
  P new ->
  (forall s dt, 0 <= dt -> inv s -> P s -> state s = PLAYING -> P (enter dt s)) ->
  (forall s d, inv s -> P s -> accumulator s >= fixedDt s -> P (loopBody d s)) ->
  (forall s, Reachable s -> P s -> P (reset s)) ->
  forall g, Reachable g -> P g.
Proof.
  intros Hnew Henter Htick Hreset g Hg.
  induction Hg as [|g g' fuel dt d Hg IH Hdt Hu|g Hg IH].
  - exact Hnew.
  - apply (update_preserves P fuel dt d g g'); try assumption.
    + intros Hs. apply Henter; try assumption. exact (inv_reachable g Hg).
    + intros s. apply Htick.
    + exact (inv_reachable g Hg).
  - apply Hreset; assumption.
Qed.

Lemma run_reachable (fuel : nat) (calls : list (R * R)) (g g' : Game.t) :
  Forall (fun c => 0 <= fst c) calls -> Reachable g ->
  run fuel calls g = Some g' -> Reachable g'.
Proof.
  intros HQ. revert g.
  induction HQ as [|[dt d] rest Hq _ IH]; intros g Hg H; simpl in H.
  - injection H as <-. exact Hg.
  - destruct (update fuel dt d g) as [g1|] eqn:Hu; [|discriminate].
    apply (IH g1); [|exact H].
    exact (reach_update g g1 fuel dt d Hg Hq Hu).
Qed.

Lemma loopBody_time (d : R) (g : Game.t) : time (loopBody d g) = time g.
Proof.
  unfold loopBody. simpl.
  destruct (fixedUpdate_frame (fixedDt g) d g) as (H & _). exact H.
Qed.

(** *** The accumulator *)

Lemma drain_accumulator_range (fuel : nat) (d : R) (g g' : Game.t) :
  0 <= accumulator g -> drain fuel d g = Some g' ->
  0 <= accumulator g' < fixedDt g'.
Proof.
  intros Hacc H.
  destruct (drain_ticks _ _ _ _ H) as (n & _ & -> & Hlt & Hk).
  split; [|exact Hlt].
  destruct n as [|n]; [exact Hacc|].
  change (ticks (S n) d g) with (loopBody d (ticks n d g)).
  rewrite loopBody_accumulator.
  assert (Hge : accumulator (ticks n d g) >= fixedDt (ticks n d g))
    by (apply Hk; lia).
  lra.
Qed.

Lemma reachable_accumulator (g : Game.t) :
  Reachable g -> 0 <= accumulator g < fixedDt g.
Proof.
  induction 1 as [|g g' fuel dt d Hg IH Hdt Hu|g Hg IH].
  - simpl. lra.
  - destruct (GameState_eq_dec (state g) PLAYING) as [Hs|Hs].
    + rewrite update_playing in Hu by exact Hs.
      apply (drain_accumulator_range fuel d (enter dt g)); [simpl; lra | exact Hu].
    + rewrite update_not_playing in Hu by exact Hs. injection Hu as <-. exact IH.
  - exact IH.
Qed.


End Reachability.

(** in every state a controller can be in, the accumulator holds at
    least zero and less than one fixed timestep: [update] leaves no whole
    tick behind and never overdraws. *)
Theorem accumulator_below_one_step (g : Game.t) :
  Game.Reachable g -> 0 <= Game.accumulator g < Game.fixedDt g.
Proof. exact (reachable_accumulator g). Qed.

Lemma accumulator_below_one_step_witness :
  exists g1 : Game.t,
    Game.Reachable g1 /\
    Game.accumulator g1 = 0.04 - 2 * (1 / 60) /\
    0 <= Game.accumulator g1 < Game.fixedDt g1.
Proof.
  exists (Game.ticks 2 1 (Game.enter 0.04 Game.new)).
  assert (Hu : Game.update 2 0.04 1 Game.new
               = Some (Game.ticks 2 1 (Game.enter 0.04 Game.new))).
  { apply update_exact; [reflexivity | simpl; lra | simpl; lra]. }
  assert (Hr : Game.Reachable (Game.ticks 2 1 (Game.enter 0.04 Game.new))).
  { apply (Game.reach_update Game.new _ 2 0.04 1);
      [exact Game.reach_new | lra | exact Hu]. }
  split; [exact Hr|]. split.
  - rewrite ticks_accumulator. simpl. lra.
  - exact (accumulator_below_one_step _ Hr).
Defined.

(** as long as the controller is not reset, the wall clock [time] is
    the game time plus what is left in the accumulator: [gameTime] is
    [time] rounded down to a whole number of timesteps of 1/60. *)
Theorem gameTime_tracks_time (fuel : nat) (calls : list (R * R)) (g' : Game.t) :
  Forall (fun c => 0 <= fst c) calls ->
  Game.run fuel calls Game.new = Some g' ->
  Game.time g' = Game.gameTime g' + Game.accumulator g' /\
  Game.gameTime g' <= Game.time g' < Game.gameTime g' + 1 / 60 /\
  exists n : nat, Game.gameTime g' = INR n * (1 / 60).
Proof.
  intros Hdt Hrun.
  pose proof (run_reachable fuel calls Game.new g' Hdt Game.reach_new Hrun) as Hr.
  pose proof (reachable_accumulator g' Hr) as Hacc.
  destruct (inv_reachable g' Hr) as ((_ & _ & _ & _ & _ & _ & Hfd) & _).
  rewrite Hfd in Hacc.
  assert (HP : Game.time g' = Game.gameTime g' + Game.accumulator g' /\
               exists n : nat, Game.gameTime g' = INR n * Game.fixedDt g').
  { apply (run_preserves (fun _ => True)
             (fun s => Game.time s = Game.gameTime s + Game.accumulator s /\
                       exists n : nat, Game.gameTime s = INR n * Game.fixedDt s)
             fuel calls Game.new g').
    - intros s dt d _ _ (Ht & Hn) _. simpl. split; [lra | exact Hn].
    - intros s dt d _ _ (Ht & n & Hn) _.
      rewrite loopBody_time, loopBody_gameTime, loopBody_accumulator,
        loopBody_fixedDt.
      split; [lra|]. exists (S n). rewrite S_INR, Hn. lra.
    - apply Forall_forall. intros; exact I.
    - exact inv_new.
    - simpl. split; [lra|]. exists 0%nat. simpl. lra.
    - exact Hrun. }
  destruct HP as (Ht & n & Hn). rewrite Hfd in Hn.
  split; [exact Ht|]. split; [lra|]. exists n. exact Hn.
Qed.

Lemma gameTime_tracks_time_witness :
  let g' := Game.ticks 2 1 (Game.enter 0.04 Game.new) in
  Forall (fun c : R * R => 0 <= fst c) [(0.04, 1)] /\
  Game.run 2 [(0.04, 1)] Game.new = Some g' /\
  Game.time g' = Game.gameTime g' + Game.accumulator g' /\
  Game.gameTime g' <= Game.time g' < Game.gameTime g' + 1 / 60.
Proof.
  intros g'.
  assert (H : Forall (fun c : R * R => 0 <= fst c) [(0.04, 1)]).
  { apply Forall_cons; [simpl; lra | apply Forall_nil]. }
  assert (Hrun : Game.run 2 [(0.04, 1)] Game.new = Some g').
  { simpl Game.run.
    rewrite (update_exact 2 0.04 1 Game.new);
      [reflexivity | reflexivity | simpl; lra | simpl; lra]. }
  split; [exact H|]. split; [exact Hrun|].
  destruct (gameTime_tracks_time 2 _ g' H Hrun) as (Ht & Hb & _).
  split; [exact Ht | exact Hb].
Defined.

Section Phase.

Import Game.

Lemma loopBody_state_cases (d : R) (g : Game.t) :
  let g' := loopBody d g in
  (clarity g' <= failureClarity g' -> state g' = FAILED) /\
  (failureClarity g' < clarity g' -> gameTime g' >= winTime g' ->
   state g' = WON) /\
  (failureClarity g' < clarity g' -> gameTime g' < winTime g' ->
   state g' = state g).
Proof. exact (fixedUpdate_state (fixedDt g) d g). Qed.

Lemma loopBody_winTime (d : R) (g : Game.t) :
  winTime (loopBody d g) = winTime g.
Proof.
  unfold loopBody. simpl.
  destruct (fixedUpdate_frame (fixedDt g) d g) as (_ & _ & H & _). exact H.
Qed.

Lemma phaseInv_loopBody (d : R) (g : Game.t) :
  0 <= fixedDt g -> phaseInv g -> phaseInv (loopBody d g).
Proof.
  intros Hfd (_ & _ & Hwon).
  destruct (loopBody_state_cases d g) as (H1 & H2 & H3). cbv zeta in *.
  split; [exact H1|]. split; [exact H2|].
  intros Hs.
  destruct (Rle_dec (clarity (loopBody d g)) (failureClarity (loopBody d g)))
    as [Hle|Hgt]; [rewrite (H1 Hle) in Hs; discriminate|].
  destruct (Rge_dec (gameTime (loopBody d g)) (winTime (loopBody d g)))
    as [Hge|Hlt]; [exact Hge|].
  assert (Hst : state (loopBody d g) = state g) by (apply H3; lra).
  rewrite Hst in Hs. specialize (Hwon Hs).
  rewrite loopBody_gameTime, loopBody_winTime. lra.
Qed.

Lemma phaseInv_reachable (g : Game.t) : Reachable g -> phaseInv g.
Proof.
  apply (Reachable_preserves phaseInv).
  - unfold phaseInv. simpl.
    split; [intros; exfalso; lra|]. split; [intros; exfalso; lra|].
    intros; discriminate.
  - intros s dt _ _ H _. exact H.
  - intros s d Hinv H _. apply phaseInv_loopBody; [|exact H].
    pose proof (inv_fixedDt s Hinv). lra.
  - intros s Hs _.
    destruct (inv_reachable s Hs) as ((Hw & _ & _ & _ & _ & Hf & _) & _).
    unfold phaseInv. simpl. rewrite Hw, Hf.
    split; [intros; exfalso; lra|]. split; [intros; exfalso; lra|].
    intros; discriminate.
Qed.

(** No tick assigns PLAYING. *)
Lemma loopBody_terminal_stays (d : R) (g : Game.t) :
  terminal g -> terminal (loopBody d g).
Proof.
  intros Ht. destruct (loopBody_state_cases d g) as (H1 & H2 & H3).
  cbv zeta in *. unfold terminal.
  destruct (Rle_dec (clarity (loopBody d g)) (failureClarity (loopBody d g)))
    as [Hle|Hgt]; [right; exact (H1 Hle)|].
  destruct (Rge_dec (gameTime (loopBody d g)) (winTime (loopBody d g)))
    as [Hge|Hlt]; [left; apply H2; lra|].
  rewrite H3 by lra. exact Ht.
Qed.

Lemma threshold_step (th gt fd : R) :
  0 <= fd -> th = Rmax 0.1 (0.4 - 0.008 * gt) ->
  Rmax 0.1 (th - 0.008 * fd) = Rmax 0.1 (0.4 - 0.008 * (gt + fd)).
Proof. intros Hfd ->. minmax. Qed.

Lemma threshold_reachable (g : Game.t) :
  Reachable g ->
  sustainableThreshold g = Rmax 0.1 (0.4 - 0.008 * gameTime g).
Proof.
  apply (Reachable_preserves
           (fun s => sustainableThreshold s = Rmax 0.1 (0.4 - 0.008 * gameTime s))).
  - simpl. minmax.
  - intros s dt _ _ H _. exact H.
  - intros s d Hinv H _. pose proof (inv_fixedDt s Hinv) as Hfd.
    destruct Hinv as ((_ & Hrate & _) & _).
    rewrite loopBody_gameTime. unfold loopBody. simpl.
    rewrite fixedUpdate_sustainableThreshold, Hrate.
    apply threshold_step; [lra | exact H].
  - intros s _ _. simpl. minmax.
Qed.

Lemma phase_matches_conditions_aux (g : Game.t) :
  Reachable g -> state g = PLAYING ->
  gameTime g < winTime g /\ failureClarity g < clarity g.
Proof.
  intros Hg Hs. destruct (phaseInv_reachable g Hg) as (H1 & H2 & _).
  assert (Hc : failureClarity g < clarity g).
  { destruct (Rle_dec (clarity g) (failureClarity g)) as [Hle|Hgt];
      [rewrite (H1 Hle) in Hs; discriminate | lra]. }
  split; [|exact Hc].
  destruct (Rge_dec (gameTime g) (winTime g)) as [Hge|Hlt]; [|lra].
  rewrite (H2 Hc Hge) in Hs. discriminate.
Qed.

End Phase.

(** in every state a controller can be in, the phase agrees with the
    two terminal conditions: clarity at or below the failure threshold
    means FAILED; clarity above it with the win time reached means WON;
    a PLAYING controller has met neither condition, and a WON one has met
    the win time with clarity above the failure threshold. *)
Theorem phase_matches_conditions (g : Game.t) :
  Game.Reachable g ->
  (Game.clarity g <= Game.failureClarity g -> Game.state g = FAILED) /\
  (Game.failureClarity g < Game.clarity g ->
   Game.gameTime g >= Game.winTime g -> Game.state g = WON) /\
  (Game.state g = PLAYING ->
   Game.gameTime g < Game.winTime g /\ Game.failureClarity g < Game.clarity g) /\
  (Game.state g = WON ->
   Game.gameTime g >= Game.winTime g /\ Game.failureClarity g < Game.clarity g).
Proof.
  intros Hg. destruct (phaseInv_reachable g Hg) as (H1 & H2 & H3).
  split; [exact H1|]. split; [exact H2|]. split.
  - intros Hs.
    assert (Hc : Game.failureClarity g < Game.clarity g).
    { destruct (Rle_dec (Game.clarity g) (Game.failureClarity g)) as [Hle|Hgt];
        [rewrite (H1 Hle) in Hs; discriminate | lra]. }
    split; [|exact Hc].
    destruct (Rge_dec (Game.gameTime g) (Game.winTime g)) as [Hge|Hlt]; [|lra].
    rewrite (H2 Hc Hge) in Hs. discriminate.
  - intros Hs. split; [exact (H3 Hs)|].
    destruct (Rle_dec (Game.clarity g) (Game.failureClarity g)) as [Hle|Hgt];
      [rewrite (H1 Hle) in Hs; discriminate | lra].
Qed.

Lemma phase_matches_conditions_witness :
  Game.Reachable Game.new /\
  Game.state Game.new = PLAYING /\
  Game.gameTime Game.new < Game.winTime Game.new /\
  Game.failureClarity Game.new < Game.clarity Game.new.
Proof.
  split; [exact Game.reach_new|]. split; [reflexivity|].
  exact (proj1 (proj2 (proj2 (phase_matches_conditions Game.new Game.reach_new)))
           eq_refl).
Defined.

(** no tick and no call ever takes a terminal controller back to
    PLAYING: the ticks of a terminal state are terminal (WON or FAILED,
    not always the same one), and every sequence of [update] calls on a
    terminal controller returns it unchanged.  Only [reset] leads back. *)
Theorem terminal_is_absorbing (g : Game.t) :
  Game.terminal g ->
  (forall (n : nat) (direction : R), Game.terminal (Game.ticks n direction g)) /\
  (forall (fuel : nat) (calls : list (R * R)), Game.run fuel calls g = Some g) /\
  Game.state (Game.reset g) = PLAYING.
Proof.
  intros Ht. split; [|split; [|reflexivity]].
  - intros n d. induction n as [|n IH]; [exact Ht|].
    change (Game.ticks (S n) d g) with (Game.loopBody d (Game.ticks n d g)).
    apply loopBody_terminal_stays. exact IH.
  - intros fuel calls. induction calls as [|[dt d] rest IH]; [reflexivity|].
    simpl. rewrite update_not_playing; [exact IH|].
    destruct Ht as [H|H]; rewrite H; discriminate.
Qed.

Lemma terminal_is_absorbing_witness :
  let g := Game.set_state Game.new WON in
  Game.terminal g /\
  Game.terminal (Game.ticks 3 1 g) /\
  Game.run 0 [(0.1, 1); (0.1, -1)] g = Some g.
Proof.
  intros g.
  assert (Ht : Game.terminal g) by (left; reflexivity).
  destruct (terminal_is_absorbing g Ht) as (H1 & H2 & _).
  split; [exact Ht|]. split; [exact (H1 3%nat 1) | exact (H2 0%nat _)].
Defined.

(** the sustainable threshold is a function of the game time alone:
    in every state a controller can be in it equals
    max(0.1, 0.4 - 0.008 * gameTime), so it reaches its floor at game
    time 37.5 and stays there. *)
Theorem threshold_closed_form (g : Game.t) :
  Game.Reachable g ->
  Game.sustainableThreshold g = Rmax 0.1 (0.4 - 0.008 * Game.gameTime g) /\
  (37.5 <= Game.gameTime g -> Game.sustainableThreshold g = 0.1).
Proof.
  intros Hg. pose proof (threshold_reachable g Hg) as H.
  split; [exact H|]. intros Hgt. rewrite H. minmax.
Qed.

Lemma threshold_closed_form_witness :
  let g := Game.ticks 2 1 (Game.enter 0.04 Game.new) in
  Game.Reachable g /\
  Game.sustainableThreshold g = Rmax 0.1 (0.4 - 0.008 * (2 * (1 / 60))).
Proof.
  intros g.
  assert (Hu : Game.update 2 0.04 1 Game.new = Some g).
  { apply update_exact; [reflexivity | simpl; lra | simpl; lra]. }
  assert (Hr : Game.Reachable g).
  { apply (Game.reach_update Game.new _ 2 0.04 1);
      [exact Game.reach_new | lra | exact Hu]. }
  split; [exact Hr|].
  rewrite (proj1 (threshold_closed_form g Hr)).
  unfold g. rewrite ticks_gameTime. simpl. f_equal. lra.
Defined.

(** [getProgress()] is within [0, 1] in every state a controller can
    be in, is 1 exactly when the win time is reached, is below 1 while
    PLAYING, and never decreases along a sequence of [update] calls. *)
Theorem getProgress_range_and_monotone (g : Game.t) :
  Game.Reachable g ->
  0 <= Game.getProgress g <= 1 /\
  (Game.getProgress g = 1 <-> Game.gameTime g >= Game.winTime g) /\
  (Game.state g = PLAYING -> Game.getProgress g < 1) /\
  (forall fuel calls g',
     Game.run fuel calls g = Some g' ->
     Game.getProgress g <= Game.getProgress g').
Proof.
  intros Hg. pose proof (inv_reachable g Hg) as Hinv.
  destruct (phaseInv_reachable g Hg) as (H1 & H2 & _).
  pose proof Hinv as ((Hw & _) & _ & _ & _ & _ & Hgt).
  unfold Game.getProgress. rewrite Hw.
  assert (Hdiv : Game.gameTime g / 180 = Game.gameTime g * / 180) by reflexivity.
  split; [minmax|]. split; [split; intros H; minmax|]. split.
  - intros Hs.
    assert (Hlt : Game.gameTime g < 180).
    { destruct (Rge_dec (Game.gameTime g) 180) as [Hge|Hlt]; [|lra].
      destruct (Rle_dec (Game.clarity g) (Game.failureClarity g)) as [Hle|Hgt'].
      - rewrite (H1 Hle) in Hs. discriminate.
      - rewrite H2 in Hs; [discriminate | lra | rewrite Hw; exact Hge]. }
    minmax.
  - intros fuel calls g' Hrun.
    destruct (run_monotone fuel calls g g' Hinv Hrun) as (_ & Hmono).
    destruct (inv_run fuel calls g g' Hinv Hrun) as ((-> & _) & _).
    minmax.
Qed.

Lemma getProgress_range_and_monotone_witness :
  Game.Reachable Game.new /\
  Game.getProgress Game.new = 0 /\
  Game.getProgress Game.new
  <= Game.getProgress (Game.ticks 2 1 (Game.enter 0.04 Game.new)).
Proof.
  split; [exact Game.reach_new|].
  split; [unfold Game.getProgress; simpl; minmax|].
  apply (proj2 (proj2 (proj2
           (getProgress_range_and_monotone Game.new Game.reach_new)))
           2%nat [(0.04, 1)]).
  simpl Game.run.
  rewrite (update_exact 2 0.04 1 Game.new);
    [reflexivity | reflexivity | simpl; lra | simpl; lra].
Defined.

(** [reset()] on any state a controller can be in gives a newly
    constructed controller except for the accumulator, which keeps its
    value, less than one timestep; the snapshot of [getRenderState()]
    does not contain the accumulator and is that of a new controller. *)
Theorem reset_is_fresh_up_to_accumulator (g : Game.t) :
  Game.Reachable g ->
  Game.reset g = Game.set_accumulator Game.new (Game.accumulator g) /\
  0 <= Game.accumulator g < 1 / 60 /\
  Game.getRenderState (Game.reset g) = Game.getRenderState Game.new.
Proof.
  intros Hg. pose proof (inv_reachable g Hg) as (Ht & _).
  pose proof (reachable_accumulator g Hg) as Hacc.
  destruct Ht as (Hw & Hr & Hc & Hd & Hm & Hf & Hfd).
  rewrite Hfd in Hacc.
  split; [|split; [exact Hacc | reflexivity]].
  apply reset_fields. repeat split; assumption.
Qed.

Lemma reset_is_fresh_up_to_accumulator_witness :
  let g := Game.enter 0.01 Game.new in
  Game.Reachable g /\
  Game.reset g = Game.set_accumulator Game.new (Game.accumulator g) /\
  Game.getRenderState (Game.reset g) = Game.getRenderState Game.new.
Proof.
  intros g.
  assert (Hu : Game.update 0 0.01 0 Game.new = Some g).
  { apply (update_exact 0); [reflexivity | simpl; lra | simpl; lra]. }
  assert (Hr : Game.Reachable g).
  { apply (Game.reach_update Game.new _ 0 0.01 0);
      [exact Game.reach_new | lra | exact Hu]. }
  destruct (reset_is_fresh_up_to_accumulator g Hr) as (H1 & _ & H3).
  split; [exact Hr|]. split; [exact H1 | exact H3].
Defined.

(** a direction outside [-1, 1] acts as the nearest bound: a call
    [update(dt, direction)] gives the same result as the call with the
    direction clamped to [-1, 1]. *)
Theorem direction_saturates (fuel : nat) (dt direction : R) (g : Game.t) :
  Game.update fuel dt direction g
  = Game.update fuel dt (Rmax (-1) (Rmin 1 direction)) g.
Proof.
  assert (Hc : Rmax (-1) (Rmin 1 (Rmax (-1) (Rmin 1 direction)))
               = Rmax (-1) (Rmin 1 direction)) by minmax.
  assert (Hbody : forall s, Game.loopBody direction s
                            = Game.loopBody (Rmax (-1) (Rmin 1 direction)) s).
  { intros s. unfold Game.loopBody, Game._fixedUpdate, Game.updatePresence,
      Game.tickOverextension, Game.beforeClarity, Presence.setExpandDirection.
    rewrite Hc. reflexivity. }
  assert (Hdrain : forall s, Game.drain fuel direction s
                             = Game.drain fuel (Rmax (-1) (Rmin 1 direction)) s).
  { induction fuel as [|fuel IH]; intros s; simpl.
    - reflexivity.
    - destruct (Rge_dec (Game.accumulator s) (Game.fixedDt s)); [|reflexivity].
      rewrite <- Hbody. apply IH. }
  unfold Game.update.
  destruct (GameState_eq_dec (Game.state g) PLAYING); [|reflexivity].
  apply Hdrain.
Qed.

(* ================================================================= *)
(** ** Further properties of the presence *)

(** with no input (direction 0) the smoothing of [Presence.update]
    does not depend on how time is sliced: two updates by dt1 and dt2
    give the same Presence as one update by dt1 + dt2. *)
Theorem presence_update_composes_at_rest (dt1 dt2 : R) (p : Presence.t) :
  Presence.expandDirection p = 0 ->
  Presence.minRadius p <= Presence.maxRadius p ->
  Presence.update dt2 (Presence.update dt1 p) = Presence.update (dt1 + dt2) p.
Proof.
  intros Hd Hmm.
  assert (Hrest : forall dt q, Presence.expandDirection q = 0 ->
                    Presence.advanceTarget dt q = q).
  { intros dt q Hq. unfold Presence.advanceTarget. rewrite Hq.
    destruct (Rlt_dec 0 0); [lra|]. reflexivity. }
  unfold Presence.update at 2. cbv zeta. rewrite (Hrest dt1 p Hd).
  unfold Presence.update at 2. cbv zeta. rewrite (Hrest (dt1 + dt2) p Hd).
  set (q := Presence.approachTarget dt1 (Presence.clampTarget p)).
  assert (Hq : Presence.expandDirection q = 0) by exact Hd.
  unfold Presence.update. cbv zeta. rewrite (Hrest dt2 q Hq).
  unfold q, Presence.approachTarget, Presence.clampTarget, Presence.smoothing,
    Presence.set_radius, Presence.set_targetRadius. simpl.
  set (T := Rmax (Presence.minRadius p)
              (Rmin (Presence.maxRadius p) (Presence.targetRadius p))).
  assert (HT : Rmax (Presence.minRadius p) (Rmin (Presence.maxRadius p) T) = T).
  { unfold T. minmax. }
  rewrite HT.
  replace (- Presence.radiusSmoothness p * (dt1 + dt2))
    with (- Presence.radiusSmoothness p * dt1 + - Presence.radiusSmoothness p * dt2)
    by ring.
  rewrite exp_plus. f_equal. ring.
Qed.

Lemma presence_update_composes_at_rest_witness :
  let p := Presence.set_radius (Presence.new 0.5 0.5) 0.4 in
  Presence.expandDirection p = 0 /\
  Presence.minRadius p <= Presence.maxRadius p /\
  Presence.update (1 / 60) (Presence.update (1 / 60) p)
  = Presence.update (1 / 60 + 1 / 60) p.
Proof.
  intros p.
  assert (Hd : Presence.expandDirection p = 0) by reflexivity.
  assert (Hmm : Presence.minRadius p <= Presence.maxRadius p) by (simpl; lra).
  split; [exact Hd|]. split; [exact Hmm|].
  exact (presence_update_composes_at_rest (1 / 60) (1 / 60) p Hd Hmm).
Defined.

(** [getOverextension] is within [0, 1], is positive exactly when
    the radius is above the threshold, and is monotone: for a radius
    within maxRadius it does not decrease when the radius grows or when
    the threshold falls. *)
Theorem getOverextension_monotone (th1 th2 : R) (p q : Presence.t) :
  Presence.maxRadius p = Presence.maxRadius q ->
  Presence.radius p <= Presence.radius q <= Presence.maxRadius q ->
  th2 <= th1 ->
  0 <= Presence.getOverextension th1 p <= 1 /\
  (0 < Presence.getOverextension th1 p <-> th1 < Presence.radius p) /\
  Presence.getOverextension th1 p <= Presence.getOverextension th2 q.
Proof.
  intros HM (Hpq & HqM) Hth.
  assert (HpM : Presence.radius p <= Presence.maxRadius p) by lra.
  pose proof (getOverextension_range th1 p HpM) as Hr1.
  pose proof (getOverextension_range th2 q HqM) as Hr2.
  split; [exact Hr1|].
  unfold Presence.getOverextension in *.
  destruct (Rle_dec (Presence.radius p) th1) as [Hle|Hgt].
  - split; [split; intros; lra|].
    destruct (Rle_dec (Presence.radius q) th2); lra.
  - destruct (Rle_dec (Presence.radius q) th2) as [Hle2|Hgt2]; [lra|].
    rewrite HM in *.
    set (M := Presence.maxRadius q) in *.
    set (a := Presence.radius p) in *. set (b := Presence.radius q) in *.
    assert (H1 : 0 < M - th1) by lra.
    assert (H2 : 0 < M - th2) by lra.
    assert (Hfrac : (a - th1) / (M - th1) <= (b - th2) / (M - th2)).
    { apply (Rmult_le_reg_r ((M - th1) * (M - th2))); [nra|].
      replace ((a - th1) / (M - th1) * ((M - th1) * (M - th2)))
        with ((a - th1) * (M - th2)) by (field; lra).
      replace ((b - th2) / (M - th2) * ((M - th1) * (M - th2)))
        with ((b - th2) * (M - th1)) by (field; lra).
      nra. }
    assert (Hpos : 0 < (a - th1) / (M - th1)).
    { apply Rdiv_lt_0_compat; lra. }
    split; [split; intros; [lra | minmax]|].
    minmax.
Qed.

Lemma getOverextension_monotone_witness :
  let p := Presence.set_radius (Presence.new 0.5 0.5) 0.3 in
  let q := Presence.set_radius (Presence.new 0.5 0.5) 0.5 in
  Presence.maxRadius p = Presence.maxRadius q /\
  Presence.radius p <= Presence.radius q <= Presence.maxRadius q /\
  0.1 <= 0.2 /\
  Presence.getOverextension 0.2 p <= Presence.getOverextension 0.1 q.
Proof.
  intros p q.
  assert (HM : Presence.maxRadius p = Presence.maxRadius q) by reflexivity.
  assert (Hr : Presence.radius p <= Presence.radius q <= Presence.maxRadius q)
    by (simpl; lra).
  assert (Hth : 0.1 <= 0.2) by lra.
  split; [exact HM|]. split; [exact Hr|]. split; [exact Hth|].
  exact (proj2 (proj2 (getOverextension_monotone 0.2 0.1 p q HM Hr Hth))).
Defined.

(* ================================================================= *)
(** ** Further properties of the clarity dynamics *)

Section Clarity.

Import Game.

Lemma tickOverextension_range (dt d : R) (g : Game.t) :
  0 <= dt -> inv g -> 0 <= tickOverextension dt d g <= 1.
Proof.
  intros Hdt Hg. rewrite tickOverextension_eq.
  apply getOverextension_range.
  destruct (inv_fixedUpdate dt d g Hdt Hg) as (_ & _ & (Hr & _) & _). lra.
Qed.

Lemma tickOverextension_zero_iff (dt d : R) (g : Game.t) :
  0 <= dt -> inv g ->
  (tickOverextension dt d g = 0 <->
   Presence.radius (presence (_fixedUpdate dt d g))
   <= sustainableThreshold (_fixedUpdate dt d g)).
Proof.
  intros Hdt Hg. rewrite tickOverextension_eq.
  set (g' := _fixedUpdate dt d g).
  destruct (inv_fixedUpdate dt d g Hdt Hg) as (_ & _ & (Hr & _) & _).
  fold g' in Hr. unfold Presence.getOverextension.
  destruct (Rle_dec (Presence.radius (presence g')) (sustainableThreshold g'))
    as [Hle|Hgt]; [split; intros; [exact Hle | reflexivity]|].
  assert (0 < (Presence.radius (presence g') - sustainableThreshold g')
              / (Presence.maxRadius (presence g') - sustainableThreshold g')).
  { apply Rdiv_lt_0_compat; lra. }
  split; intros; [minmax | lra].
Qed.

(** The clarity after a tick that is not overextended, from a state
    that satisfies the invariant. *)
Lemma clarity_idle_tick (dt d : R) (g : Game.t) :
  0 <= dt -> inv g -> tickOverextension dt d g = 0 ->
  clarity g <= clarity (_fixedUpdate dt d g) /\
  (1 <= clarity g -> clarity (_fixedUpdate dt d g) = clarity g).
Proof.
  intros Hdt Hg Hov.
  rewrite fixedUpdate_clarity. unfold beforeChecks. rewrite Hov.
  unfold updateClarity. destruct (Rlt_dec 0 0) as [Habs|_]; [lra|].
  destruct Hg as (Ht & _ & _ & Hc & _ & Hgt).
  assert (Htc : 0.3 <= targetClarity (beforeClarity dt d g) <= 1).
  { apply targetClarity_range; [exact Ht | simpl; lra]. }
  change (clarity (beforeClarity dt d g)) with (clarity g).
  change (clarityRecoveryRate (beforeClarity dt d g))
    with (clarityRecoveryRate g).
  destruct Ht as (_ & _ & -> & _).
  destruct (Rlt_dec (clarity g) (targetClarity (beforeClarity dt d g)));
    simpl; split; intros; minmax.
Qed.

End Clarity.

(** on a tick that is overextended (the new radius is above the new
    threshold) clarity becomes max(0, clarity - clarityDecayRate *
    overextension * dt): it never recovers on such a tick, drops by at
    most 0.25 * dt, and drops strictly when dt > 0 and clarity > 0. *)
Theorem clarity_decays_when_overextended (dt direction : R) (g : Game.t) :
  Game.inv g -> 0 <= dt ->
  let g' := Game._fixedUpdate dt direction g in
  Game.sustainableThreshold g' < Presence.radius (Game.presence g') ->
  0 < Game.tickOverextension dt direction g <= 1 /\
  Game.clarity g' =
    Rmax 0 (Game.clarity g
            - Game.clarityDecayRate g * Game.tickOverextension dt direction g * dt) /\
  Game.clarity g - 0.25 * dt <= Game.clarity g' <= Game.clarity g /\
  (0 < dt -> 0 < Game.clarity g -> Game.clarity g' < Game.clarity g).
Proof.
  intros Hinv Hdt g' Hover.
  pose proof (tickOverextension_range dt direction g Hdt Hinv) as Hr.
  assert (Hpos : 0 < Game.tickOverextension dt direction g).
  { destruct (Req_dec (Game.tickOverextension dt direction g) 0) as [Hz|Hnz];
      [|lra].
    apply (tickOverextension_zero_iff dt direction g Hdt Hinv) in Hz.
    fold g' in Hz. lra. }
  split; [lra|].
  unfold g'. rewrite fixedUpdate_clarity. unfold Game.beforeChecks.
  set (ov := Game.tickOverextension dt direction g) in *.
  unfold Game.updateClarity. destruct (Rlt_dec 0 ov); [|lra]. simpl.
  destruct Hinv as ((_ & _ & _ & Hd & _) & _ & _ & Hc & _).
  split; [reflexivity|]. rewrite Hd.
  assert (H1 : 0 <= 0.25 * ov * dt) by nra.
  assert (H2 : 0.25 * ov * dt <= 0.25 * dt) by nra.
  split; [minmax|]. intros Hdt' Hc'.
  assert (H3 : 0 < 0.25 * ov * dt) by nra. minmax.
Qed.

Lemma clarity_decays_when_overextended_witness :
  let g := Game.nearEnd 0.5 in
  let g' := Game._fixedUpdate (1 / 60) 1 g in
  Game.inv g /\ 0 <= 1 / 60 /\
  Game.sustainableThreshold g' < Presence.radius (Game.presence g') /\
  Game.clarity g - 0.25 * (1 / 60) <= Game.clarity g' < Game.clarity g.
Proof.
  intros g g'.
  assert (Hinv : Game.inv g).
  { unfold Game.inv, Game.tuned, Presence.tuned, Presence.bounded. simpl.
    repeat split; lra. }
  assert (Hdt : 0 <= 1 / 60) by lra.
  assert (Hover : Game.sustainableThreshold g' < Presence.radius (Game.presence g')).
  { destruct (expanded_fixedUpdate g (nearEnd_expanded 0.5))
      as ((_ & _ & Hr & _ & Hth) & _).
    fold g' in Hr, Hth. rewrite Hth. lra. }
  split; [exact Hinv|]. split; [exact Hdt|]. split; [exact Hover|].
  destruct (clarity_decays_when_overextended (1 / 60) 1 g Hinv Hdt Hover)
    as (_ & _ & Hb & Hstrict).
  fold g' in Hb, Hstrict. split; [lra|].
  apply Hstrict; [lra | simpl; lra].
Defined.

(** a controller cannot fail without overextending.  From a PLAYING
    state a controller can be in, as long as every tick of a call ends
    with the radius at or below the threshold, clarity does not drop and
    the phase after [n] such ticks is WON if the win time is reached and
    PLAYING otherwise, never FAILED. *)
Theorem no_failure_without_overextension
    (n : nat) (dt direction : R) (g : Game.t) :
  Game.Reachable g -> 0 <= dt -> Game.state g = PLAYING ->
  let s (k : nat) := Game.ticks k direction (Game.enter dt g) in
  (forall k : nat, (0 < k <= n)%nat ->
     Presence.radius (Game.presence (s k)) <= Game.sustainableThreshold (s k)) ->
  Game.clarity g <= Game.clarity (s n) /\
  Game.state (s n) <> FAILED /\
  (Game.gameTime (s n) >= Game.winTime g -> Game.state (s n) = WON) /\
  (Game.gameTime (s n) < Game.winTime g -> Game.state (s n) = PLAYING).
Proof.
  intros Hg Hdt Hs s Hsafe.
  pose proof (inv_reachable g Hg) as Hinv.
  destruct (phase_matches_conditions_aux g Hg Hs) as (Hgt0 & Hc0).
  assert (Hfc : forall k, Game.failureClarity (s k) = Game.failureClarity g
                          /\ Game.winTime (s k) = Game.winTime g).
  { intros k. destruct (inv_ticks k direction (Game.enter dt g)
                          (inv_enter dt g Hinv)) as ((Hw & _ & _ & _ & _ & Hf & _) & _).
    destruct Hinv as ((Hw0 & _ & _ & _ & _ & Hf0 & _) & _).
    fold (s k) in Hw, Hf. rewrite Hw, Hf, Hw0, Hf0. split; reflexivity. }
  assert (Hmain : Game.clarity g <= Game.clarity (s n) /\
                  (Game.gameTime (s n) >= Game.winTime g -> Game.state (s n) = WON) /\
                  (Game.gameTime (s n) < Game.winTime g -> Game.state (s n) = PLAYING)).
  { induction n as [|n IH].
    - unfold s. simpl. split; [lra|]. split; [intros; lra | intros; exact Hs].
    - destruct IH as (IHc & IHw & IHp); [intros k Hk; apply Hsafe; lia|].
      assert (Hinvn : Game.inv (s n)).
      { apply inv_ticks, inv_enter. exact Hinv. }
      pose proof (inv_fixedDt (s n) Hinvn) as Hfd.
      assert (Hstep : s (S n) = Game.loopBody direction (s n)) by reflexivity.
      assert (Hov : Game.tickOverextension (Game.fixedDt (s n)) direction (s n) = 0).
      { apply tickOverextension_zero_iff; [lra | exact Hinvn |].
        specialize (Hsafe (S n)). rewrite Hstep in Hsafe.
        apply Hsafe. lia. }
      destruct (clarity_idle_tick (Game.fixedDt (s n)) direction (s n))
        as (Hcl & _); [lra | exact Hinvn | exact Hov |].
      assert (Hcl' : Game.clarity (s n) <= Game.clarity (s (S n))) by exact Hcl.
      destruct (loopBody_state_cases direction (s n)) as (_ & H2 & H3).
      cbv zeta in H2, H3. rewrite <- Hstep in H2, H3.
      destruct (Hfc (S n)) as (Hf1 & Hw1). rewrite Hf1, Hw1 in H2, H3.
      assert (Hgtn : Game.gameTime (s n) <= Game.gameTime (s (S n))).
      { rewrite Hstep, loopBody_gameTime. lra. }
      split; [lra|]. split.
      + intros Hge. apply H2; [lra | exact Hge].
      + intros Hlt. rewrite H3 by lra. apply IHp. lra. }
  destruct Hmain as (Hc & Hw & Hp).
  split; [exact Hc|]. split; [|split; [exact Hw | exact Hp]].
  destruct (Rge_dec (Game.gameTime (s n)) (Game.winTime g)) as [Hge|Hlt].
  - rewrite (Hw Hge). discriminate.
  - rewrite Hp by lra. discriminate.
Qed.

Lemma no_failure_without_overextension_witness :
  let s1 := Game.ticks 1 0 (Game.enter 0.02 Game.new) in
  Game.Reachable Game.new /\ 0 <= 0.02 /\ Game.state Game.new = PLAYING /\
  Presence.radius (Game.presence s1) <= Game.sustainableThreshold s1 /\
  Game.clarity Game.new <= Game.clarity s1 /\
  Game.state s1 = PLAYING.
Proof.
  intros s1.
  assert (Hdt : 0 <= 0.02) by lra.
  assert (Hsafe : Presence.radius (Game.presence s1) <= Game.sustainableThreshold s1).
  { unfold s1. change (Game.ticks 1 0 (Game.enter 0.02 Game.new))
      with (Game.loopBody 0 (Game.enter 0.02 Game.new)).
    rewrite loopBody_presence.
    set (p := Presence.setExpandDirection 0 (Game.presence (Game.enter 0.02 Game.new))).
    rewrite presence_update_radius, presence_update_targetRadius.
    destruct (presence_advanceTarget_cases (Game.fixedDt (Game.enter 0.02 Game.new)) p)
      as (_ & _ & Hzero).
    assert (Hd : Presence.expandDirection p = 0) by (simpl; minmax).
    rewrite (Hzero Hd).
    change (Presence.targetRadius p) with 0.15.
    change (Presence.radius p) with 0.15.
    change (Presence.minRadius p) with 0.05.
    change (Presence.maxRadius p) with 0.6.
    assert (Hc : Rmax 0.05 (Rmin 0.6 0.15) = 0.15) by minmax.
    rewrite Hc. unfold Game.loopBody. simpl.
    rewrite fixedUpdate_sustainableThreshold. simpl. minmax. }
  split; [exact Game.reach_new|]. split; [exact Hdt|]. split; [reflexivity|].
  split; [exact Hsafe|].
  destruct (no_failure_without_overextension 1 0.02 0 Game.new
              Game.reach_new Hdt eq_refl) as (Hc & _ & _ & Hp).
  { intros k Hk. assert (k = 1%nat) by lia. subst k. exact Hsafe. }
  split; [exact Hc|]. apply Hp.
  unfold Game.ticks. simpl Nat.iter. rewrite loopBody_gameTime. simpl. lra.
Defined.

(* ================================================================= *)
(** ** Frames against ticks *)

Section Slicing.

Import Game.











End Slicing.



(* ================================================================= *)
(** ** How long a game lasts, and who can win it *)

Section Strategies.

Import Game.

(** Clarity falls by at most [0.25 * dt] on any tick. *)
Lemma clarity_drop_bound (dt d : R) (g : Game.t) :
  0 <= dt -> inv g -> clarity g - 0.25 * dt <= clarity (_fixedUpdate dt d g).
Proof.
  intros Hdt Hinv.
  pose proof (tickOverextension_range dt d g Hdt Hinv) as Hov.
  destruct (Req_dec (tickOverextension dt d g) 0) as [Hz|Hnz].
  - destruct (clarity_idle_tick dt d g Hdt Hinv Hz) as (H & _). nra.
  - rewrite fixedUpdate_clarity. unfold beforeChecks.
    set (ov := tickOverextension dt d g) in *.
    unfold updateClarity. destruct (Rlt_dec 0 ov); [|lra]. simpl.
    destruct Hinv as ((_ & _ & _ & -> & _) & _ & _ & Hc & _).
    assert (0.25 * ov * dt <= 0.25 * dt) by nra. minmax.
Qed.

Lemma early_playing (fuel : nat) (calls : list (R * R)) (g' : Game.t) :
  run fuel calls new = Some g' ->
  1 - 0.25 * gameTime g' <= clarity g' /\
  (gameTime g' < 3.4 -> state g' = PLAYING).
Proof.
  intros Hrun.
  apply (run_preserves (fun _ => True)
           (fun s => 1 - 0.25 * gameTime s <= clarity s /\
                     (gameTime s < 3.4 -> state s = PLAYING))
           fuel calls new g'); try exact Hrun.
  - intros s dt d _ _ H _. exact H.
  - intros s dt d _ Hinv (Hc & Hp) _.
    pose proof (inv_fixedDt s Hinv) as Hfd.
    assert (Hfd' : 0 <= fixedDt s) by lra.
    pose proof (clarity_drop_bound (fixedDt s) d s Hfd' Hinv) as Hdrop.
    destruct (loopBody_state_cases d s) as (_ & _ & H3). cbv zeta in H3.
    assert (Hcl : clarity (loopBody d s) = clarity (_fixedUpdate (fixedDt s) d s))
      by reflexivity.
    destruct (inv_loopBody d s Hinv) as ((Hw & _ & _ & _ & _ & Hf & _) & _).
    rewrite loopBody_gameTime in *. rewrite Hcl in *.
    split; [lra|]. intros Hlt. rewrite H3; [apply Hp; lra | lra | lra].
  - apply Forall_forall. intros; exact I.
  - exact inv_new.
  - simpl. split; [lra | reflexivity].
Qed.

(** *** Never retracting *)

Lemma presence_never_retracted (dt d : R) (p : Presence.t) :
  0 <= dt -> 0 <= d -> Presence.tuned p ->
  0.15 <= Presence.radius p -> 0.15 <= Presence.targetRadius p ->
  let p' := Presence.update dt (Presence.setExpandDirection d p) in
  0.15 <= Presence.radius p' /\ 0.15 <= Presence.targetRadius p'.
Proof.
  intros Hdt Hd (He & _ & Hmin & Hmax & Hk) Hr HT. cbv zeta.
  set (q := Presence.setExpandDirection d p).
  assert (Hq : 0 <= Presence.expandDirection q <= 1) by (simpl; minmax).
  assert (HT' : 0.15 <= Presence.targetRadius (Presence.update dt q)).
  { rewrite presence_update_targetRadius.
    destruct (presence_advanceTarget_cases dt q) as (Hpos & _ & Hzero).
    cbv zeta in Hpos, Hzero.
    change (Presence.minRadius q) with (Presence.minRadius p).
    change (Presence.maxRadius q) with (Presence.maxRadius p).
    change (Presence.targetRadius q) with (Presence.targetRadius p) in Hpos, Hzero.
    change (Presence.expandRate q) with (Presence.expandRate p) in Hpos.
    rewrite Hmin, Hmax. rewrite He in Hpos.
    destruct (Req_dec (Presence.expandDirection q) 0) as [Hz|Hnz].
    - rewrite (Hzero Hz). minmax.
    - rewrite Hpos by lra.
      assert (0 <= 0.12 * Presence.expandDirection q * dt) by nra. minmax. }
  split; [|exact HT'].
  assert (Hs : 0 <= Presence.smoothing dt q < 1).
  { apply smoothing_range; [exact Hdt|].
    change (Presence.radiusSmoothness q) with (Presence.radiusSmoothness p).
    rewrite Hk. lra. }
  rewrite presence_update_radius.
  change (Presence.radius q) with (Presence.radius p). nra.
Qed.

Lemma neverRetracted_loopBody (d : R) (s : Game.t) :
  0 <= d -> inv s ->
  sustainableThreshold s = Rmax 0.1 (0.4 - 0.008 * gameTime s) ->
  neverRetracted s -> neverRetracted (loopBody d s).
Proof.
  intros Hd Hinv Hth (Hr & HT & Hc).
  pose proof (inv_fixedDt s Hinv) as Hfd0.
  pose proof Hinv as ((_ & Hrate & _ & Hdec & _ & _ & Hfd) & Hpt & _).
  assert (Hdt : 0 <= fixedDt s) by lra.
  destruct (presence_never_retracted (fixedDt s) d (presence s) Hdt Hd Hpt Hr HT)
    as (Hr' & HT').
  cbv zeta in Hr', HT'. rewrite <- loopBody_presence in Hr', HT'.
  split; [exact Hr'|]. split; [exact HT'|].
  pose proof (inv_loopBody d s Hinv) as Hinv'.
  destruct Hinv' as (_ & Hpt' & (Hrb & _) & Hc' & _).
  rewrite loopBody_gameTime, Hfd.
  destruct (Rlt_dec (gameTime s + 1 / 60) 37.5) as [Hearly|Hlate]; [minmax|].
  assert (Hth' : sustainableThreshold (_fixedUpdate (fixedDt s) d s) = 0.1).
  { rewrite fixedUpdate_sustainableThreshold, Hrate, Hfd.
    rewrite (threshold_step _ (gameTime s) (1 / 60)); [minmax | lra | exact Hth]. }
  assert (Hov : 0.1 <= tickOverextension (fixedDt s) d s <= 1).
  { rewrite tickOverextension_eq, Hth'.
    assert (Hp : presence (_fixedUpdate (fixedDt s) d s) = presence (loopBody d s))
      by reflexivity.
    rewrite Hp. unfold Presence.getOverextension.
    destruct Hpt' as (_ & _ & _ & HM & _). rewrite HM in *.
    set (r := Presence.radius (presence (loopBody d s))) in *.
    destruct (Rle_dec r 0.1); [lra|].
    replace ((r - 0.1) / (0.6 - 0.1)) with (2 * r - 0.2) by lra. minmax. }
  assert (Hcl : clarity (loopBody d s)
                = Rmax 0 (clarity s - 0.25 * tickOverextension (fixedDt s) d s
                                      * fixedDt s)).
  { unfold loopBody. simpl. rewrite fixedUpdate_clarity. unfold beforeChecks.
    unfold updateClarity.
    destruct (Rlt_dec 0 (tickOverextension (fixedDt s) d s)); [|lra].
    simpl. rewrite Hdec. reflexivity. }
  set (ov := tickOverextension (fixedDt s) d s) in *.
  rewrite Hcl, Hfd. minmax.
Qed.

(** *** Always retracting *)

Lemma exp_smoothing_bound : 0 < exp (- 8 * (1 / 60)) <= 60 / 68.
Proof.
  split; [apply exp_pos|].
  replace (- 8 * (1 / 60)) with (- (8 / 60)) by lra.
  rewrite exp_Ropp.
  pose proof (exp_ineq1_le (8 / 60)) as H.
  pose proof (exp_pos (8 / 60)) as Hp.
  apply (Rmult_le_reg_r (exp (8 / 60))); [exact Hp|].
  rewrite Rinv_l by lra. lra.
Qed.

Lemma alwaysRetracted_loopBody (d : R) (s : Game.t) :
  d <= -1 -> inv s ->
  sustainableThreshold s = Rmax 0.1 (0.4 - 0.008 * gameTime s) ->
  alwaysRetracted s ->
  alwaysRetracted (loopBody d s) /\
  Presence.radius (presence (loopBody d s)) <= sustainableThreshold (loopBody d s).
Proof.
  intros Hd Hinv Hth (HT & Hr & Hc).
  pose proof Hinv as ((_ & Hrate & _ & _ & _ & _ & Hfd) & Hpt & (_ & HTb) & _ & _ & Hgt).
  pose proof Hpt as (_ & Hret & Hmin & Hmax & Hk).
  set (q := Presence.setExpandDirection d (presence s)).
  assert (Hq : Presence.expandDirection q = -1) by (simpl; minmax).
  assert (HT' : Presence.targetRadius (presence (loopBody d s))
                = Rmax 0.05 (Presence.targetRadius (presence s) - 0.003)).
  { rewrite loopBody_presence, presence_update_targetRadius. fold q.
    destruct (presence_advanceTarget_cases (fixedDt s) q) as (_ & Hneg & _).
    cbv zeta in Hneg. rewrite Hneg by lra. rewrite Hq.
    change (Presence.minRadius q) with (Presence.minRadius (presence s)).
    change (Presence.maxRadius q) with (Presence.maxRadius (presence s)).
    change (Presence.targetRadius q) with (Presence.targetRadius (presence s)).
    change (Presence.retractRate q) with (Presence.retractRate (presence s)).
    rewrite Hmin, Hmax, Hret, Hfd in *. minmax. }
  assert (Hr' : Presence.radius (presence (loopBody d s))
                = Presence.radius (presence s)
                  + (Presence.targetRadius (presence (loopBody d s))
                     - Presence.radius (presence s))
                    * (1 - exp (- 8 * (1 / 60)))).
  { rewrite loopBody_presence, presence_update_radius. fold q.
    unfold Presence.smoothing.
    change (Presence.radiusSmoothness q) with (Presence.radiusSmoothness (presence s)).
    change (Presence.radius q) with (Presence.radius (presence s)).
    rewrite Hk, Hfd. reflexivity. }
  pose proof exp_smoothing_bound as He.
  set (e := exp (- 8 * (1 / 60))) in *.
  set (T := Presence.targetRadius (presence s)) in *.
  set (r := Presence.radius (presence s)) in *.
  set (T1 := Presence.targetRadius (presence (loopBody d s))) in *.
  set (r1 := Presence.radius (presence (loopBody d s))) in *.
  assert (HT1a : T - 0.003 <= T1) by (rewrite HT'; minmax).
  assert (HT1b : T1 <= Rmax 0.05 (0.15 - 0.18 * (gameTime s + 1 / 60))).
  { rewrite HT'. minmax. }
  assert (Hr1 : r1 <= T1 + 0.0225).
  { assert (Hu : (r - T1) * e <= 0.0225).
    { destruct (Rle_dec (r - T1) 0) as [Hneg|Hpos]; [nra|].
      assert ((r - T1) * e <= 0.0255 * e) by nra. nra. }
    rewrite Hr'. lra. }
  assert (Hth' : sustainableThreshold (loopBody d s)
                 = Rmax 0.1 (0.4 - 0.008 * (gameTime s + 1 / 60))).
  { unfold loopBody. simpl. rewrite fixedUpdate_sustainableThreshold, Hrate, Hfd.
    apply threshold_step; [lra | exact Hth]. }
  assert (Hsafe : r1 <= sustainableThreshold (loopBody d s)).
  { rewrite Hth'. minmax. }
  split; [|exact Hsafe].
  split; [rewrite loopBody_gameTime, Hfd; exact HT1b|].
  split; [exact Hr1|].
  assert (Hdt : 0 <= fixedDt s) by lra.
  assert (Hov : tickOverextension (fixedDt s) d s = 0).
  { apply tickOverextension_zero_iff; [exact Hdt | exact Hinv | exact Hsafe]. }
  destruct (clarity_idle_tick (fixedDt s) d s Hdt Hinv Hov) as (_ & Hkeep).
  assert (Hcl : clarity (loopBody d s) = clarity (_fixedUpdate (fixedDt s) d s))
    by reflexivity.
  rewrite Hcl, Hkeep; [exact Hc | lra].
Qed.

End Strategies.

Section StrategyRuns.

Import Game.

Lemma INR_Z_to_nat (z : Z) : (0 <= z)%Z -> INR (Z.to_nat z) = IZR z.
Proof. intros Hz. rewrite INR_IZR_INZ, Z2Nat.id by exact Hz. reflexivity. Qed.

(** One call from the initial state that drains [z] ticks. *)
Lemma run_single_call (z : Z) (dt d : R) :
  (0 <= z)%Z -> IZR z * (1 / 60) <= dt < (IZR z + 1) * (1 / 60) ->
  run (Z.to_nat z) [(dt, d)] new = Some (ticks (Z.to_nat z) d (enter dt new)) /\
  gameTime (ticks (Z.to_nat z) d (enter dt new)) = IZR z * (1 / 60).
Proof.
  intros Hz Hdt. split.
  - simpl run. rewrite update_exact; [reflexivity | reflexivity | simpl; lra |].
    rewrite S_INR, INR_Z_to_nat by exact Hz. simpl. lra.
  - rewrite ticks_gameTime, INR_Z_to_nat by exact Hz. simpl. lra.
Qed.

Lemma never_retracting_run (fuel : nat) (calls : list (R * R)) (g' : Game.t) :
  Forall (fun c => 0 <= fst c /\ 0 <= snd c) calls ->
  run fuel calls new = Some g' ->
  neverRetracted g'.
Proof.
  intros HQ Hrun.
  apply (run_preserves (fun c => 0 <= fst c /\ 0 <= snd c)
           (fun s => neverRetracted s /\
                     sustainableThreshold s = Rmax 0.1 (0.4 - 0.008 * gameTime s))
           fuel calls new g'); try assumption.
  - intros s dt d _ _ H _. exact H.
  - intros s dt d (_ & Hd) Hinv (Hn & Hth) _. simpl in Hd. split.
    + apply neverRetracted_loopBody; assumption.
    + pose proof (inv_fixedDt s Hinv) as Hfd.
      destruct Hinv as ((_ & Hrate & _) & _).
      rewrite loopBody_gameTime. unfold loopBody. simpl.
      rewrite fixedUpdate_sustainableThreshold, Hrate.
      apply threshold_step; [lra | exact Hth].
  - exact inv_new.
  - unfold neverRetracted. simpl. split; [|minmax].
    split; [lra|]. split; [lra | minmax].
Qed.

Lemma always_retracting_run (fuel : nat) (calls : list (R * R)) (g' : Game.t) :
  Forall (fun c => 0 <= fst c /\ snd c <= -1) calls ->
  run fuel calls new = Some g' ->
  alwaysRetracted g' /\ state g' <> FAILED /\
  Presence.radius (presence g') <= sustainableThreshold g'.
Proof.
  intros HQ Hrun.
  assert (H : (alwaysRetracted g' /\
               sustainableThreshold g' = Rmax 0.1 (0.4 - 0.008 * gameTime g')) /\
              state g' <> FAILED /\
              Presence.radius (presence g') <= sustainableThreshold g').
  { apply (run_preserves (fun c => 0 <= fst c /\ snd c <= -1)
             (fun s => (alwaysRetracted s /\
                        sustainableThreshold s = Rmax 0.1 (0.4 - 0.008 * gameTime s)) /\
                       state s <> FAILED /\
                       Presence.radius (presence s) <= sustainableThreshold s)
             fuel calls new g'); try assumption.
    - intros s dt d _ _ H _. exact H.
    - intros s dt d (_ & Hd) Hinv ((Ha & Hth) & Hst & _) _. simpl in Hd.
      destruct (alwaysRetracted_loopBody d s Hd Hinv Hth Ha) as (Ha' & Hsafe).
      pose proof (inv_fixedDt s Hinv) as Hfd.
      split; [split; [exact Ha'|]|split; [|exact Hsafe]].
      + destruct Hinv as ((_ & Hrate & _) & _).
        rewrite loopBody_gameTime. unfold loopBody. simpl.
        rewrite fixedUpdate_sustainableThreshold, Hrate.
        apply threshold_step; [lra | exact Hth].
      + destruct (loopBody_state_cases d s) as (_ & H2 & H3). cbv zeta in H2, H3.
        destruct (inv_loopBody d s Hinv) as ((_ & _ & _ & _ & _ & Hf & _) & _).
        destruct Ha' as (_ & _ & Hc). rewrite Hc, Hf in H2, H3.
        destruct (Rge_dec (gameTime (loopBody d s)) (winTime (loopBody d s)))
          as [Hge|Hlt].
        * rewrite H2; [discriminate | lra | exact Hge].
        * rewrite H3; [exact Hst | lra | lra].
    - exact inv_new.
    - unfold alwaysRetracted. simpl.
      split; [split; [|minmax]|split; [discriminate | lra]].
      split; [minmax|]. split; [lra | reflexivity]. }
  destruct H as ((Ha & _) & Hst & Hsafe).
  split; [exact Ha|]. split; [exact Hst | exact Hsafe].
Qed.

End StrategyRuns.

(** a game cannot end early.  Clarity falls by at most 0.25 per
    second of game time, so along any sequence of [update] calls from the
    initial state clarity is at least 1 - 0.25 * gameTime, and the
    controller is still PLAYING as long as the game time is below 3.4. *)
Theorem no_end_before_3_4_seconds
    (fuel : nat) (calls : list (R * R)) (g' : Game.t) :
  Game.run fuel calls Game.new = Some g' ->
  1 - 0.25 * Game.gameTime g' <= Game.clarity g' /\
  (Game.gameTime g' < 3.4 -> Game.state g' = PLAYING).
Proof. exact (early_playing fuel calls g'). Qed.

Lemma no_end_before_3_4_seconds_witness :
  let g' := Game.ticks (Z.to_nat 180) 1 (Game.enter 3 Game.new) in
  Game.run (Z.to_nat 180) [(3, 1)] Game.new = Some g' /\
  Game.gameTime g' = 3 /\
  0.25 <= Game.clarity g' /\ Game.state g' = PLAYING.
Proof.
  intros g'.
  destruct (run_single_call 180 3 1) as (Hrun & Hgt); [lia | lra |].
  fold g' in Hrun, Hgt.
  destruct (no_end_before_3_4_seconds _ _ g' Hrun) as (Hc & Hp).
  split; [exact Hrun|]. split; [rewrite Hgt; lra|].
  split; [rewrite Hgt in Hc; lra | apply Hp; rewrite Hgt; lra].
Defined.

(** a player who never retracts cannot win.  Along any sequence of
    [update] calls from the initial state with directions >= 0 the radius
    never goes below its starting value 0.15; once the threshold is at
    its floor the controller is overextended on every tick, so the
    phase is never WON and is FAILED from game time 71.5 on. *)
Theorem never_retracting_cannot_win
    (fuel : nat) (calls : list (R * R)) (g' : Game.t) :
  Forall (fun c => 0 <= fst c /\ 0 <= snd c) calls ->
  Game.run fuel calls Game.new = Some g' ->
  0.15 <= Presence.radius (Game.presence g') /\
  Game.state g' <> WON /\
  (71.5 <= Game.gameTime g' -> Game.state g' = FAILED).
Proof.
  intros HQ Hrun.
  destruct (never_retracting_run fuel calls g' HQ Hrun) as (Hr & _ & Hc).
  assert (Hreach : Game.Reachable g').
  { apply (run_reachable fuel calls Game.new g'); [|exact Game.reach_new|exact Hrun].
    apply Forall_forall. intros c Hin.
    rewrite Forall_forall in HQ. exact (proj1 (HQ c Hin)). }
  destruct (phaseInv_reachable g' Hreach) as (H1 & _ & H3).
  destruct (inv_reachable g' Hreach) as ((Hw & _ & _ & _ & _ & Hf & _) & _).
  assert (Hfail : 71.5 <= Game.gameTime g' -> Game.state g' = FAILED).
  { intros Hgt. apply H1. rewrite Hf. minmax. }
  split; [exact Hr|]. split; [|exact Hfail].
  intros Hwon. pose proof (H3 Hwon) as Hge. rewrite Hw in Hge.
  rewrite Hfail in Hwon by lra. discriminate.
Qed.

Lemma never_retracting_cannot_win_witness :
  let g' := Game.ticks (Z.to_nat 4320) 0 (Game.enter 72 Game.new) in
  Forall (fun c : R * R => 0 <= fst c /\ 0 <= snd c) [(72, 0)] /\
  Game.run (Z.to_nat 4320) [(72, 0)] Game.new = Some g' /\
  Game.gameTime g' = 72 /\ Game.state g' = FAILED.
Proof.
  intros g'.
  assert (HQ : Forall (fun c : R * R => 0 <= fst c /\ 0 <= snd c) [(72, 0)]).
  { apply Forall_cons; [simpl; lra | apply Forall_nil]. }
  destruct (run_single_call 4320 72 0) as (Hrun & Hgt); [lia | lra |].
  fold g' in Hrun, Hgt.
  split; [exact HQ|]. split; [exact Hrun|]. split; [rewrite Hgt; lra|].
  apply (proj2 (proj2 (never_retracting_cannot_win _ _ g' HQ Hrun))).
  rewrite Hgt. lra.
Defined.

(** the game can be won, by retracting throughout.  Along any
    sequence of [update] calls from the initial state with directions
    <= -1 the radius stays at or below the threshold, clarity stays at 1,
    the phase is never FAILED, and it is WON exactly when the game time
    has reached 180. *)
Theorem always_retracting_wins
    (fuel : nat) (calls : list (R * R)) (g' : Game.t) :
  Forall (fun c => 0 <= fst c /\ snd c <= -1) calls ->
  Game.run fuel calls Game.new = Some g' ->
  Presence.radius (Game.presence g') <= Game.sustainableThreshold g' /\
  Game.clarity g' = 1 /\
  Game.state g' <> FAILED /\
  (Game.state g' = WON <-> Game.gameTime g' >= 180).
Proof.
  intros HQ Hrun.
  destruct (always_retracting_run fuel calls g' HQ Hrun)
    as ((_ & _ & Hc) & Hst & Hsafe).
  assert (Hreach : Game.Reachable g').
  { apply (run_reachable fuel calls Game.new g'); [|exact Game.reach_new|exact Hrun].
    apply Forall_forall. intros c Hin.
    rewrite Forall_forall in HQ. exact (proj1 (HQ c Hin)). }
  destruct (phaseInv_reachable g' Hreach) as (_ & H2 & H3).
  destruct (inv_reachable g' Hreach) as ((Hw & _ & _ & _ & _ & Hf & _) & _).
  rewrite Hw, Hf, Hc in *.
  split; [exact Hsafe|]. split; [reflexivity|]. split; [exact Hst|].
  split; [exact H3 | intros Hge; apply H2; [lra | exact Hge]].
Qed.

Lemma always_retracting_wins_witness :
  let g' := Game.ticks (Z.to_nat 10800) (-1) (Game.enter 180 Game.new) in
  Forall (fun c : R * R => 0 <= fst c /\ snd c <= -1) [(180, -1)] /\
  Game.run (Z.to_nat 10800) [(180, -1)] Game.new = Some g' /\
  Game.gameTime g' = 180 /\ Game.clarity g' = 1 /\ Game.state g' = WON.
Proof.
  intros g'.
  assert (HQ : Forall (fun c : R * R => 0 <= fst c /\ snd c <= -1) [(180, -1)]).
  { apply Forall_cons; [simpl; lra | apply Forall_nil]. }
  destruct (run_single_call 10800 180 (-1)) as (Hrun & Hgt); [lia | lra |].
  fold g' in Hrun, Hgt.
  destruct (always_retracting_wins _ _ g' HQ Hrun) as (_ & Hc & _ & Hw).
  split; [exact HQ|]. split; [exact Hrun|]. split; [rewrite Hgt; lra|].
  split; [exact Hc|]. apply Hw. rewrite Hgt. lra.
Defined.


(* ================================================================= *)
(** ** The input handler *)

Section InputFacts.

Import Input.

Lemma input_inv_new : inv new.
Proof. unfold inv. simpl. repeat split; lra. Qed.

Lemma input_inv_dispatch (e : event) (i : Input.t) : inv i -> inv (dispatch e i).
Proof.
  intros (Hf & Hs & He). destruct e; unfold inv; simpl;
    (split; [exact Hf|]); (split; [exact Hs|]); lra.
Qed.

Lemma input_inv_update (cx cy : R) (i : Input.t) : inv i -> inv (update cx cy i).
Proof.
  intros (Hf & Hs & He). unfold update, inv.
  destruct (isActive i); simpl.
  - destruct (Rlt_dec (centerDist cx cy i) 1); simpl.
    + split; [exact Hf|]. split; [exact Hs | lra].
    + rewrite Hf.
      set (raw := Rmax (-1) (Rmin 1 (radialComponent cx cy i))).
      assert (Hraw : -1 <= raw <= 1) by (unfold raw; minmax).
      split; [reflexivity|]. split; lra.
  - split; [exact Hf|]. split; lra.
Qed.

Lemma input_inv_applyAll (steps : list step) (i : Input.t) :
  inv i -> inv (applyAll steps i).
Proof.
  revert i. induction steps as [|s rest IH]; intros i Hi; [exact Hi|].
  simpl. apply IH. destruct s; [apply input_inv_dispatch | apply input_inv_update];
    exact Hi.
Qed.

(** [update] leaves the pointer positions, the activity flag and the
    constants alone. *)
Lemma input_update_frame (cx cy : R) (i : Input.t) :
  isActive (update cx cy i) = isActive i /\
  currentPos (update cx cy i) = currentPos i /\
  lastPos (update cx cy i) = lastPos i /\
  sensitivity (update cx cy i) = sensitivity i /\
  smoothingFactor (update cx cy i) = smoothingFactor i.
Proof.
  unfold update. destruct (isActive i) eqn:Ha; simpl.
  - destruct (Rlt_dec (centerDist cx cy i) 1); simpl; rewrite ?Ha; repeat split.
  - rewrite ?Ha. repeat split.
Qed.

End InputFacts.

(** whatever the DOM events and however often [update] runs, the
    direction that [getExpandDirection()] hands to the game is within
    [-1, 1], and so is the smoothed direction behind it. *)
Theorem input_direction_in_range (steps : list Input.step) :
  let i := Input.applyAll steps Input.new in
  -1 <= Input.getExpandDirection i <= 1 /\
  -1 <= Input.smoothedDirection i <= 1.
Proof.
  cbv zeta.
  destruct (input_inv_applyAll steps Input.new input_inv_new) as (_ & Hs & He).
  split; [exact He | exact Hs].
Qed.

(** after the pointer is released the direction does not stop at
    once.  [_onEnd] sets [expandDirection] to 0, but every later [update]
    overwrites it with the smoothed direction, which shrinks by the
    factor 0.85 per call: after n >= 1 updates the game is handed
    smoothedDirection * 0.85^n. *)
Theorem input_decays_after_release (centers : list (R * R)) (i : Input.t) :
  let updates := map (fun c => Input.onUpdate (fst c) (snd c)) centers in
  let j := Input.applyAll updates (Input._onEnd i) in
  Input.getExpandDirection (Input._onEnd i) = 0 /\
  Input.isActive j = false /\
  Input.smoothedDirection j
  = Input.smoothedDirection i * 0.85 ^ length centers /\
  (centers <> [] -> Input.getExpandDirection j = Input.smoothedDirection j).
Proof.
  cbv zeta. split; [reflexivity|].
  assert (H : forall k : Input.t,
             Input.isActive k = false ->
             Input.isActive
               (Input.applyAll
                  (map (fun c => Input.onUpdate (fst c) (snd c)) centers) k) = false /\
             Input.smoothedDirection
               (Input.applyAll
                  (map (fun c => Input.onUpdate (fst c) (snd c)) centers) k)
             = Input.smoothedDirection k * 0.85 ^ length centers /\
             (centers <> [] ->
              Input.getExpandDirection
                (Input.applyAll
                   (map (fun c => Input.onUpdate (fst c) (snd c)) centers) k)
              = Input.smoothedDirection
                  (Input.applyAll
                     (map (fun c => Input.onUpdate (fst c) (snd c)) centers) k))).
  { induction centers as [|[cx cy] rest IH]; intros k Hk.
    - simpl. split; [exact Hk|]. split; [lra | intros Hne; contradiction].
    - simpl map. simpl length.
      change (Input.applyAll (Input.onUpdate cx cy :: ?l) k)
        with (Input.applyAll l (Input.update cx cy k)).
      assert (Hstep : Input.update cx cy k
                      = Input.set_expandDirection
                          (Input.set_smoothedDirection k
                             (Input.smoothedDirection k * 0.85))
                          (Input.smoothedDirection k * 0.85)).
      { unfold Input.update. rewrite Hk. reflexivity. }
      unfold Input.applyAll in *. simpl fold_left.
      destruct (IH (Input.update cx cy k)) as (Ha & Hs & He).
      { rewrite Hstep. simpl. exact Hk. }
      split; [exact Ha|]. split.
      + rewrite Hs, Hstep. simpl. lra.
      + intros _. destruct rest as [|c rest'].
        * simpl. rewrite Hstep. reflexivity.
        * apply He. discriminate. }
  exact (H (Input._onEnd i) eq_refl).
Qed.

(** a drag that is not followed by another pointer event keeps
    steering.  [update] does not touch [lastPos] and [currentPos], so
    while the pointer is down and at least one pixel from the presence
    centre every frame sees the same raw direction, and after n updates
    the smoothed direction is raw + (smoothed - raw) * (1 - factor)^n. *)
Theorem input_held_drag_converges
    (n : nat) (presenceCenterX presenceCenterY : R) (i : Input.t) :
  Input.isActive i = true ->
  1 <= Input.centerDist presenceCenterX presenceCenterY i ->
  let raw :=
    Rmax (-1) (Rmin 1 (Input.radialComponent presenceCenterX presenceCenterY i)) in
  let j :=
    Input.applyAll
      (repeat (Input.onUpdate presenceCenterX presenceCenterY) n) i in
  Input.currentPos j = Input.currentPos i /\
  Input.lastPos j = Input.lastPos i /\
  Input.smoothedDirection j
  = raw + (Input.smoothedDirection i - raw) * (1 - Input.smoothingFactor i) ^ n /\
  ((0 < n)%nat -> Input.getExpandDirection j = Input.smoothedDirection j).
Proof.
  intros Ha Hc. cbv zeta.
  set (cx := presenceCenterX) in *. set (cy := presenceCenterY) in *.
  set (raw := Rmax (-1) (Rmin 1 (Input.radialComponent cx cy i))).
  assert (H : forall k : Input.t,
             Input.isActive k = true ->
             Input.currentPos k = Input.currentPos i ->
             Input.lastPos k = Input.lastPos i ->
             Input.sensitivity k = Input.sensitivity i ->
             Input.smoothingFactor k = Input.smoothingFactor i ->
             let j := Input.applyAll (repeat (Input.onUpdate cx cy) n) k in
             Input.currentPos j = Input.currentPos i /\
             Input.lastPos j = Input.lastPos i /\
             Input.smoothedDirection j
             = raw + (Input.smoothedDirection k - raw)
                     * (1 - Input.smoothingFactor i) ^ n /\
             ((0 < n)%nat -> Input.getExpandDirection j = Input.smoothedDirection j)).
  { induction n as [|n IH]; intros k Hka Hcp Hlp Hse Hsf; cbv zeta.
    - simpl. split; [exact Hcp|]. split; [exact Hlp|]. split; [lra | lia].
    - simpl repeat.
      change (Input.applyAll (Input.onUpdate cx cy :: ?l) k)
        with (Input.applyAll l (Input.update cx cy k)).
      assert (Hcd : Input.centerDist cx cy k = Input.centerDist cx cy i).
      { unfold Input.centerDist. rewrite Hcp. reflexivity. }
      assert (Hrc : Input.radialComponent cx cy k = Input.radialComponent cx cy i).
      { unfold Input.radialComponent. rewrite Hcp, Hlp, Hse. reflexivity. }
      assert (Hstep : Input.update cx cy k
                      = Input.set_expandDirection
                          (Input.set_smoothedDirection k
                             (Input.smoothedDirection k
                              + (raw - Input.smoothedDirection k)
                                * Input.smoothingFactor k))
                          (Input.smoothedDirection k
                           + (raw - Input.smoothedDirection k)
                             * Input.smoothingFactor k)).
      { unfold Input.update. rewrite Hka. simpl negb. cbv iota.
        rewrite Hcd, Hrc. fold raw.
        destruct (Rlt_dec (Input.centerDist cx cy i) 1); [lra | reflexivity]. }
      destruct (IH (Input.update cx cy k)) as (H1 & H2 & H3 & H4);
        try (rewrite Hstep; simpl; assumption).
      cbv zeta in H1, H2, H3, H4.
      split; [exact H1|]. split; [exact H2|]. split.
      + rewrite H3, Hstep. simpl. rewrite Hsf. ring.
      + intros _. destruct n as [|n'].
        * simpl. rewrite Hstep. reflexivity.
        * apply H4. lia. }
  exact (H i Ha eq_refl eq_refl eq_refl eq_refl).
Qed.

Lemma input_held_drag_converges_witness :
  let i := Input._onMove 10 0 (Input._onStart 5 0 Input.new) in
  Input.isActive i = true /\
  1 <= Input.centerDist 0 0 i /\
  Input.smoothedDirection
    (Input.applyAll (repeat (Input.onUpdate 0 0) 2) i)
  = 1 + (0 - 1) * (1 - 0.15) ^ 2.
Proof.
  intros i.
  assert (Ha : Input.isActive i = true) by reflexivity.
  assert (Hcd : Input.centerDist 0 0 i = 10).
  { unfold Input.centerDist. simpl.
    replace ((10 - 0) * (10 - 0) + (0 - 0) * (0 - 0)) with (10 * 10) by lra.
    apply sqrt_square. lra. }
  assert (Hc : 1 <= Input.centerDist 0 0 i) by (rewrite Hcd; lra).
  split; [exact Ha|]. split; [exact Hc|].
  destruct (input_held_drag_converges 2 0 0 i Ha Hc) as (_ & _ & Hs & _).
  rewrite Hs.
  assert (Hraw : Input.radialComponent 0 0 i = 15).
  { unfold Input.radialComponent. fold (Input.centerDist 0 0 i). rewrite Hcd.
    simpl. lra. }
  rewrite Hraw.
  assert (Hclamp : Rmax (-1) (Rmin 1 15) = 1) by minmax.
  rewrite Hclamp. simpl. lra.
Defined.

(* ================================================================= *)
(** ** The main loop *)

Section MainLoop.

Import ReachGame.





End MainLoop.





Lemma input_decays_after_release_witness :
  let i := Input.set_smoothedDirection (Input._onStart 500 300 Input.new) 0.8 in
  let j :=
    Input.applyAll [Input.onUpdate 400 300; Input.onUpdate 400 300]
      (Input._onEnd i) in
  Input.getExpandDirection (Input._onEnd i) = 0 /\
  Input.getExpandDirection j = 0.8 * 0.85 ^ 2.
Proof.
  intros i j.
  destruct (input_decays_after_release [(400, 300); (400, 300)] i)
    as (H0 & _ & Hs & He).
  split; [exact H0|].
  unfold j. simpl map in He, Hs.
  rewrite He by discriminate. rewrite Hs. reflexivity.
Defined.
